(** * Return tracking of the bslint code-flow plugin

    A shallow embedding of [src/plugins/trackCodeFlow/returnTracking.ts]:
    the three callbacks [openBlock], [visitStatement], [closeBlock] built
    by [createReturnLinter], the private [finalize] and [branchesCount].

    JavaScript objects that the callbacks mutate through shared references
    (the [StatementInfo] frames reached through the lint state) live in a
    store indexed by references; the closure-local [returns] array and the
    [diagnostics] sink are threaded explicitly. *)

From Stdlib Require Import ZArith String.
From stdpp Require Import base option list gmap.

(** ** Source positions and tokens (brighterscript) *)

Record Position := mkPosition { line : nat; character : nat }.

Record Range := mkRange { range_start : Position; range_end : Position }.

(** [util.createRangeFromPositions] *)
Definition createRangeFromPositions (s e : Position) : Range := mkRange s e.

Inductive TokenKind :=
| TokenKind_Void
| TokenKind_Function
| TokenKind_Sub
| TokenKind_Integer
| TokenKind_String
| TokenKind_Identifier.

Record Token := mkToken { tok_kind : TokenKind; tok_range : Range }.

(** The parts of a [FunctionExpression] that the linter reads.  The two
    parentheses are always there; the function-kind token and the
    return-type token are read through [??] and [?.]. *)
Record FunctionExpression := mkFunctionExpression {
  functionType : option Token;
  leftParen : Token;
  returnTypeToken : option Token;
  rightParen : Token
}.

(** ** Statements, as far as the linter looks at them *)

(** The operand of a [return].  The parser may leave a comment node in
    operand position, which [isCommentStatement] recognises. *)
Inductive Expression :=
| CommentOperand
| LiteralExpression (text : string)
| VariableExpression (name : string).

(** An entry of [elseIfs]; the linter only counts the entries. *)
Record ElseIf := mkElseIf { elseIf_condition : Expression }.

(** One constructor per statement class the linter distinguishes, and a
    catch-all.  An [IfStatement] declares [elseIfs : ElseIf[]]; [None]
    stands for a node of that class lacking the field. *)
Inductive StatementKind :=
| IfStatement (elseIfs : option (list ElseIf))
| ReturnStatement (value : option Expression)
| CommentStatement
| Block
| OtherStatement (name : string).

(** [range] is read as [stat.range || funRange]: it may be missing. *)
Record Statement := mkStatement {
  stat_kind : StatementKind;
  stat_range : option Range
}.

Definition isIfStatement (s : Statement) : bool :=
  match stat_kind s with IfStatement _ => true | _ => false end.

Definition isReturnStatement (s : Statement) : bool :=
  match stat_kind s with ReturnStatement _ => true | _ => false end.

Definition isCommentStatement (s : Statement) : bool :=
  match stat_kind s with CommentStatement => true | _ => false end.

Definition isCommentOperand (e : Expression) : bool :=
  match e with CommentOperand => true | _ => false end.

(** [stat.value] of a return statement ([undefined] on any other node). *)
Definition stat_value (s : Statement) : option Expression :=
  match stat_kind s with ReturnStatement v => v | _ => None end.

(** ** Frames, captured returns, diagnostics *)

(** [StatementInfo]: [branches?: number], [returns?: boolean].  The code
    only tests [returns] for truthiness and only ever assigns [true], so a
    missing flag is [false]. *)
Record StatementInfo := mkStatementInfo {
  stat : Statement;
  branches : option Z;
  returns : bool
}.

Definition set_branches (n : Z) (b : StatementInfo) : StatementInfo :=
  {| stat := stat b; branches := Some n; returns := returns b |}.

Definition set_returns (b : StatementInfo) : StatementInfo :=
  {| stat := stat b; branches := branches b; returns := true |}.

Record ReturnInfo := mkReturnInfo {
  ret_stat : Statement;
  hasValue : bool
}.

Inductive ReturnLintError :=
| UnreachableCode
| ReturnValueUnexpected
| ReturnValueExpected
| UnsafeReturnValue
| ReturnValueRequired
| ReturnValueMissing
| LastReturnValueMissing.

Definition ReturnLintError_code (e : ReturnLintError) : Z :=
  match e with
  | UnreachableCode => 2011
  | ReturnValueUnexpected => 2012
  | ReturnValueExpected => 2013
  | UnsafeReturnValue => 2014
  | ReturnValueRequired => 2015
  | ReturnValueMissing => 2016
  | LastReturnValueMissing => 2017
  end%Z.

#[global] Instance ReturnLintError_eq_dec : EqDecision ReturnLintError.
Proof. solve_decision. Defined.

Inductive DiagnosticSeverity := Error | Warning | Information | Hint.

Inductive DiagnosticTag := Unnecessary | Deprecated.

(** The two rule slots of [BsLintRules] that this linter reads. *)
Record BsLintRules := mkBsLintRules {
  unreachableCode : DiagnosticSeverity;
  consistentReturn : DiagnosticSeverity
}.

Record BscFile := mkBscFile { pathAbsolute : string }.

(** [range] is optional here because [visitStatement] copies
    [curr.stat.range] into the record as it is. *)
Record BsDiagnostic := mkBsDiagnostic {
  diag_severity : DiagnosticSeverity;
  diag_code : ReturnLintError;
  diag_message : string;
  diag_range : option Range;
  diag_file : BscFile;
  diag_tags : list DiagnosticTag
}.

(** ** The lint state and the mutable world *)

Definition ref := nat.

(** [LintState], owned by the traversal driver: references to the frame of
    the enclosing block, of the enclosing if statement and of the current
    branch.  Each may be [undefined]. *)
Record LintState := mkLintState {
  parent : option ref;
  ifs : option ref;
  branch : option ref
}.

(** What the callbacks can change: the frames (by reference), the
    closure-local [returns] array and the [diagnostics] array. *)
Record World := mkWorld {
  frames : gmap ref StatementInfo;
  returnInfos : list ReturnInfo;
  diagnostics : list BsDiagnostic
}.

Definition with_frames (h : gmap ref StatementInfo) (w : World) : World :=
  {| frames := h; returnInfos := returnInfos w; diagnostics := diagnostics w |}.

Definition push_return (r : ReturnInfo) (w : World) : World :=
  {| frames := frames w; returnInfos := returnInfos w ++ [r];
     diagnostics := diagnostics w |}.

Definition push_diagnostics (ds : list BsDiagnostic) (w : World) : World :=
  {| frames := frames w; returnInfos := returnInfos w;
     diagnostics := diagnostics w ++ ds |}.

(** Following a reference of the lint state; a reference that denotes no
    frame reads as [undefined]. *)
Definition deref (w : World) (r : option ref) : option (ref * StatementInfo) :=
  r ≫= λ i, (λ b, (i, b)) <$> frames w !! i.

(** ** Completions: a call returns or throws *)

Inductive Exception := TypeError (what : string).

Inductive Completion (A : Type) :=
| Normal (a : A)
| Throws (e : Exception).
Arguments Normal {A} a.
Arguments Throws {A} e.

Definition bindC {A B} (c : Completion A) (k : A → Completion B) : Completion B :=
  match c with Normal a => k a | Throws e => Throws e end.

Notation "x ←! c ; k" := (bindC c (λ x, k))
  (at level 20, c at level 100, k at level 200, right associativity).

(** ** branchesCount *)

Definition branchesCount (b : StatementInfo) : Completion Z :=
  match stat_kind (stat b) with
  | IfStatement (Some elseIfs) => Normal (1 + Z.of_nat (length elseIfs) + 1)%Z
  | IfStatement None => Throws (TypeError "s.elseIfs is undefined")
  | _ => Normal 2%Z
  end.

(** ** createReturnLinter *)

Section createReturnLinter.

Variable severity : BsLintRules.
Variable file : BscFile.
Variable func : FunctionExpression.
(** [isBranchedBlock] is imported from the plugin's index module. *)
Variable isBranchedBlock : StatementInfo → bool.

Definition unreachable (curr : StatementInfo) : BsDiagnostic :=
  {| diag_severity := unreachableCode severity;
     diag_code := UnreachableCode;
     diag_message := "Unreachable code";
     diag_range := stat_range (stat curr);
     diag_file := file;
     diag_tags := [Unnecessary] |}.

(** [!!curr.stat.value && !isCommentStatement(curr.stat.value)] *)
Definition carriesValue (s : Statement) : bool :=
  match stat_value s with
  | Some v => negb (isCommentOperand v)
  | None => false
  end.

Definition visitStatement (state : LintState) (curr : StatementInfo)
    (w : World) : World :=
  let parent_ := deref w (parent state) in
  if from_option (λ p, returns p.2) false parent_ then
    if negb (isCommentStatement (stat curr))
    then push_diagnostics [unreachable curr] w
    else w
  else if isReturnStatement (stat curr) then
    let w1 := push_return
                {| ret_stat := stat curr;
                   hasValue := carriesValue (stat curr) |} w in
    let returnBlock :=
      match deref w (ifs state) with
      | Some _ => deref w (branch state)
      | None => parent_
      end in
    match returnBlock with
    | Some (rb, _) =>
        if bool_decide ((branches ∘ snd <$> parent_) = Some (Some 1%Z))
        then with_frames (alter set_returns rb (frames w1)) w1
        else w1
    | None => w1
    end
  else w.

Definition openBlock (block : StatementInfo) : Completion StatementInfo :=
  if isBranchedBlock block then
    n ←! branchesCount block;
    Normal (set_branches n block)
  else Normal (set_branches 1%Z block).

(** The function range only includes the function signature. *)
Definition funRange : Range :=
  createRangeFromPositions
    (range_start (tok_range (default (leftParen func) (functionType func))))
    (range_end (tok_range (default (rightParen func) (returnTypeToken func)))).

Definition returnedValues (w : World) : list ReturnInfo :=
  filter (λ r, hasValue r = true) (returnInfos w).

Definition isVoid : bool :=
  match returnTypeToken func with
  | Some t => match tok_kind t with TokenKind_Void => true | _ => false end
  | None => false
  end.

Definition isFunctionKind : bool :=
  match functionType func with
  | Some t => match tok_kind t with TokenKind_Function => true | _ => false end
  | None => false
  end.

Definition requiresReturnValue (w : World) : bool :=
  bool_decide (is_Some (returnTypeToken func))
  || (0 <? length (returnedValues w))
  || (isFunctionKind && (0 <? length (returnInfos w))).

Definition missingValue (w : World) : bool :=
  requiresReturnValue w
  && negb (length (returnedValues w) =? length (returnInfos w)).

Definition unexpectedValue (r : ReturnInfo) : BsDiagnostic :=
  {| diag_severity := consistentReturn severity;
     diag_code := ReturnValueUnexpected;
     diag_message := "Function as void should not return a value";
     diag_range := Some (default funRange (stat_range (ret_stat r)));
     diag_file := file;
     diag_tags := [] |}.

Definition unsafeReturn : BsDiagnostic :=
  {| diag_severity := consistentReturn severity;
     diag_code := UnsafeReturnValue;
     diag_message := "Not all code paths return a value";
     diag_range := Some funRange;
     diag_file := file;
     diag_tags := [] |}.

Definition valueMissing (r : ReturnInfo) : BsDiagnostic :=
  {| diag_severity := consistentReturn severity;
     diag_code := ReturnValueMissing;
     diag_message := "This function should consistently return a value";
     diag_range := Some (default funRange (stat_range (ret_stat r)));
     diag_file := file;
     diag_tags := [] |}.

(** The diagnostics that [finalize] pushes, in order. *)
Definition finalize_emits (last : StatementInfo) (w : World) : list BsDiagnostic :=
  let hasReturnedValue := (0 <? length (returnedValues w)) in
  if isVoid then
    if hasReturnedValue then unexpectedValue <$> returnedValues w else []
  else
    let missingBranches := negb (returns last) in
    (if (requiresReturnValue w || hasReturnedValue)
        && (missingBranches || (length (returnInfos w) =? 0))
     then [unsafeReturn] else [])
    ++ (if missingValue w
        then valueMissing <$> filter (λ r, hasValue r = false) (returnInfos w)
        else []).

Definition finalize (last : StatementInfo) (w : World) : World :=
  push_diagnostics (finalize_emits last w) w.

Definition closeBlock (state : LintState) (closed : StatementInfo)
    (w : World) : World :=
  match deref w (parent state) with
  | None => finalize closed w
  | Some (p, parent_) =>
      if isIfStatement (stat closed) then
        if bool_decide (branches closed = Some 0%Z)
        then with_frames (alter set_returns p (frames w)) w
        else w
      else if returns closed then
        if isIfStatement (stat parent_)
        then with_frames
               (alter (λ b, set_branches (default 2 (branches b) - 1)%Z b)
                      p (frames w)) w
        else w
      else w
  end.

End createReturnLinter.

(** * The function contract in the words of the design *)

(** The declared return type is the explicit "no value" type. *)
Definition declaredVoid (func : FunctionExpression) : Prop :=
  ∃ t, returnTypeToken func = Some t ∧ tok_kind t = TokenKind_Void.

(** At least one captured return carries a value ([withValue] non-empty). *)
Definition someReturnHasValue (w : World) : Prop :=
  ∃ r, r ∈ returnInfos w ∧ hasValue r = true.

(** A return-type annotation is present, or some captured return carries a
    value, or the function-kind token is [function] and a return exists. *)
Definition requiresValue (func : FunctionExpression) (w : World) : Prop :=
  is_Some (returnTypeToken func)
  ∨ someReturnHasValue w
  ∨ ((∃ t, functionType func = Some t ∧ tok_kind t = TokenKind_Function)
     ∧ returnInfos w ≠ []).

Definition hasCode (c : ReturnLintError) (d : BsDiagnostic) : Prop :=
  diag_code d = c.

#[global] Instance hasCode_dec c d : Decision (hasCode c d).
Proof. unfold hasCode. apply _. Defined.

(** Visiting a run of statements one after the other under one lint
    state, as the driver does for the remaining statements of a block. *)
Definition visitStatements (severity : BsLintRules) (file : BscFile)
    (state : LintState) (currs : list StatementInfo) (w : World) : World :=
  foldl (λ w curr, visitStatement severity file state curr w) w currs.

(** The frame whose [returns] flag a [return] may set: the branch frame
    when inside an if statement, the enclosing frame otherwise. *)
Definition governingBlock (state : LintState) (w : World)
    : option (ref * StatementInfo) :=
  match deref w (ifs state) with
  | Some _ => deref w (branch state)
  | None => deref w (parent state)
  end.

(** The enclosing frame exists and has exactly one branch. *)
Definition parentHasOneBranch (state : LintState) (w : World) : Prop :=
  ∃ p b, deref w (parent state) = Some (p, b) ∧ branches b = Some 1%Z.

(** The enclosing frame exists and is flagged as returning. *)
Definition parentReturns (state : LintState) (w : World) : Prop :=
  ∃ p b, deref w (parent state) = Some (p, b) ∧ returns b = true.

(** The statement node has the fields its class declares: a node of
    class [IfStatement] has its [elseIfs] list. *)
Definition hasDeclaredFields (s : Statement) : Prop :=
  stat_kind s ≠ IfStatement None.

(** * The traversal driver

    Modelled from the spec: the driver that walks a function body and
    calls the three callbacks, the [LintState] it maintains and
    [isBranchedBlock] belong to the plugin's index module, which is not
    among the sources.  The design describes them: [openBlock] on entering
    a statement that contains statements, [visitStatement] for every
    statement, [closeBlock] on leaving; the open frames form the ancestor
    chain of the visited statement; the lint state shows the enclosing
    frame and, inside the arm of a conditional, that conditional and the
    arm's frame; [closeBlock] sees the frame below the closed one. *)

#[local] Unset Elimination Schemes.

(** Modelled from the spec: a function body as a statement tree, with
    leaves, and if statements whose arms are blocks of statements. *)
Inductive Tree :=
| TReturn (range : option Range) (value : option Expression)
| TComment (range : option Range)
| TOther (name : string) (range : option Range)
| TIf (range : option Range) (thenBranch : list Tree)
      (elseIfs : list (list Tree)) (elseBranch : option (list Tree)).

#[local] Set Elimination Schemes.

(** Induction over trees that reaches the statements inside the arms. *)
Section Tree_induction.

Variable P : Tree → Prop.
Hypothesis Hreturn : ∀ r v, P (TReturn r v).
Hypothesis Hcomment : ∀ r, P (TComment r).
Hypothesis Hother : ∀ n r, P (TOther n r).
Hypothesis Hif : ∀ r t es e,
  Forall P t → Forall (Forall P) es → from_option (Forall P) True e →
  P (TIf r t es e).

Fixpoint Tree_arms_ind (t : Tree) : P t :=
  let block :=
    fix block (ss : list Tree) : Forall P ss :=
      match ss with
      | [] => List.Forall_nil P
      | s :: ss' => List.Forall_cons P s ss' (Tree_arms_ind s) (block ss')
      end in
  match t with
  | TReturn r v => Hreturn r v
  | TComment r => Hcomment r
  | TOther n r => Hother n r
  | TIf r t es e =>
      Hif r t es e (block t)
        ((fix blocks (bs : list (list Tree)) : Forall (Forall P) bs :=
            match bs with
            | [] => List.Forall_nil (Forall P)
            | b :: bs' =>
                List.Forall_cons (Forall P) b bs' (block b) (blocks bs')
            end) es)
        (match e return from_option (Forall P) True e with
         | Some b => block b
         | None => I
         end)
  end.

End Tree_induction.

(** Modelled from the spec: the statement node of a tree, as the linter
    sees it. *)
Definition statementOf (t : Tree) : Statement :=
  match t with
  | TReturn r v => mkStatement (ReturnStatement v) r
  | TComment r => mkStatement CommentStatement r
  | TOther n r => mkStatement (OtherStatement n) r
  | TIf r _ es _ =>
      mkStatement
        (IfStatement (Some ((λ _, mkElseIf (VariableExpression "condition")) <$> es)))
        r
  end.

(** Modelled from the spec: the node of the block of statements that
    forms a function body or an arm of an if statement. *)
Definition blockStatement : Statement := mkStatement Block None.

(** Modelled from the spec: one call of the driver into the linter. *)
Inductive Callback :=
| CallVisitStatement (s : Statement)
| CallOpenBlock (s : Statement)
| CallCloseBlock.

(** Modelled from the spec: the depth-first callback sequence of a
    statement and of a block. *)
Fixpoint callbacksOf (t : Tree) : list Callback :=
  let block (ss : list Tree) :=
    [CallVisitStatement blockStatement; CallOpenBlock blockStatement]
    ++ concat (map callbacksOf ss) ++ [CallCloseBlock] in
  match t with
  | TIf _ thenBranch elseIfs elseBranch =>
      [CallVisitStatement (statementOf t); CallOpenBlock (statementOf t)]
      ++ block thenBranch
      ++ concat (map block elseIfs)
      ++ match elseBranch with Some ss => block ss | None => [] end
      ++ [CallCloseBlock]
  | _ => [CallVisitStatement (statementOf t)]
  end.

(** Modelled from the spec: the callback sequence of the statements of a
    block, and of the block with its own opening and closing. *)
Definition callbacksOfStatements (ss : list Tree) : list Callback :=
  concat (map callbacksOf ss).

Definition callbacksOfBlock (ss : list Tree) : list Callback :=
  [CallVisitStatement blockStatement; CallOpenBlock blockStatement]
  ++ callbacksOfStatements ss ++ [CallCloseBlock].

(** Modelled from the spec: the driver's side of the analysis, the stack
    of references to the open frames (innermost first) and the next free
    reference, next to the world the linter changes. *)
Record Driver := mkDriver {
  stack : list ref;
  fresh : ref;
  world : World
}.

Definition with_world (w : World) (d : Driver) : Driver :=
  {| stack := stack d; fresh := fresh d; world := w |}.

(** Modelled from the spec: the lint state the callbacks read.  [parent]
    is the innermost open frame; inside an arm of an if statement, [ifs]
    is that statement's frame and [branch] the arm's frame. *)
Definition lintState (d : Driver) : LintState :=
  match stack d with
  | [] => {| parent := None; ifs := None; branch := None |}
  | p :: outer =>
      let enclosingIf :=
        match outer with
        | i :: _ =>
            match frames (world d) !! i with
            | Some b => if isIfStatement (stat b) then Some i else None
            | None => None
            end
        | [] => None
        end in
      {| parent := Some p;
         ifs := enclosingIf;
         branch := match enclosingIf with Some _ => Some p | None => None end |}
  end.

(** Modelled from the spec: the frame the driver makes for a statement
    before the linter sees it. *)
Definition newFrame (s : Statement) : StatementInfo :=
  {| stat := s; branches := None; returns := false |}.

Section driver.

Variable severity : BsLintRules.
Variable file : BscFile.
Variable func : FunctionExpression.
Variable isBranchedBlock : StatementInfo → bool.

(** Modelled from the spec: the driver performing one callback.
    [closeBlock] on an empty stack breaks the driver's own guarantee of
    balanced calls. *)
Definition step (c : Callback) (d : Driver) : Completion Driver :=
  match c with
  | CallVisitStatement s =>
      Normal (with_world
                (visitStatement severity file (lintState d) (newFrame s)
                   (world d)) d)
  | CallOpenBlock s =>
      b ←! openBlock isBranchedBlock (newFrame s);
      Normal {| stack := fresh d :: stack d;
                fresh := S (fresh d);
                world := with_frames (<[fresh d := b]> (frames (world d)))
                           (world d) |}
  | CallCloseBlock =>
      match stack d with
      | r :: outer =>
          match frames (world d) !! r with
          | Some closed =>
              let popped := {| stack := outer; fresh := fresh d;
                               world := world d |} in
              Normal (with_world
                        (closeBlock severity file func (lintState popped)
                           closed (world d)) popped)
          | None => Throws (TypeError "closed frame is undefined")
          end
      | [] => Throws (TypeError "closeBlock without an open block")
      end
  end.

(** Modelled from the spec: the callbacks performed in order; a throw
    ends the walk. *)
Fixpoint drive (cs : list Callback) (d : Driver) : Completion Driver :=
  match cs with
  | [] => Normal d
  | c :: cs' => d' ←! step c d; drive cs' d'
  end.

(** Modelled from the spec: one fresh linter instance per function, with
    no open frame, no captured return and an empty sink. *)
Definition initial : Driver :=
  {| stack := []; fresh := 0;
     world := {| frames := ∅; returnInfos := []; diagnostics := [] |} |}.

(** Modelled from the spec: the analysis of one function body, from the
    first callback through the closing of the outermost block. *)
Definition analyse (body : list Tree) : Completion World :=
  d ←! drive (callbacksOfBlock body) initial;
  Normal (world d).

End driver.

(** Modelled from the spec: a branch-introducing statement is one with
    mutually exclusive arms; in a statement tree these are the if
    statements. *)
Definition isBranchedBlock_of_tree (b : StatementInfo) : bool :=
  isIfStatement (stat b).

(** ** Execution paths of a statement tree *)

(** How an execution path through a statement or block ends. *)
Inductive Outcome :=
| FallsThrough
| Returned (withValue : bool).

#[global] Instance Outcome_eq_dec : EqDecision Outcome.
Proof. solve_decision. Defined.

(** The paths through a sequence: a path that falls through one
    statement goes on with the next, a path that returns ends there. *)
Fixpoint inSequence (oss : list (list Outcome)) : list Outcome :=
  match oss with
  | [] => [FallsThrough]
  | os :: rest =>
      concat (map (λ o, match o with
                        | FallsThrough => inSequence rest
                        | Returned v => [Returned v]
                        end) os)
  end.

(** The ends of all execution paths through a statement.  An if
    statement without an else arm has the path that skips every arm. *)
Fixpoint outcomesOf (t : Tree) : list Outcome :=
  let block (ss : list Tree) := inSequence (map outcomesOf ss) in
  match t with
  | TReturn _ v =>
      [Returned (carriesValue (mkStatement (ReturnStatement v) None))]
  | TComment _ => [FallsThrough]
  | TOther _ _ => [FallsThrough]
  | TIf _ thenBranch elseIfs elseBranch =>
      block thenBranch
      ++ concat (map block elseIfs)
      ++ match elseBranch with Some ss => block ss | None => [FallsThrough] end
  end.

Definition outcomesOfBlock (ss : list Tree) : list Outcome :=
  inSequence (map outcomesOf ss).

(** Every execution path ends in a return that carries a value. *)
Definition everyPathReturnsValue (body : list Tree) : bool :=
  forallb (λ o, bool_decide (o = Returned true)) (outcomesOfBlock body).

Definition canFallThrough (os : list Outcome) : bool :=
  existsb (λ o, bool_decide (o = FallsThrough)) os.

(** Every path that ends in a return ends in one that carries a value. *)
Definition allValued (os : list Outcome) : bool :=
  forallb (λ o, negb (bool_decide (o = Returned false))) os.

Definition isComment (t : Tree) : bool :=
  match t with TComment _ => true | _ => false end.

(** In a block, nothing but comments follows a statement that no path
    falls through. *)
Fixpoint liveStatements (ss : list Tree) : bool :=
  match ss with
  | [] => true
  | s :: rest =>
      if canFallThrough (outcomesOf s) then liveStatements rest
      else forallb isComment rest
  end.

(** No block of the tree has unreachable statements. *)
Fixpoint noDeadCode (t : Tree) : bool :=
  let block (ss : list Tree) := liveStatements ss && forallb noDeadCode ss in
  match t with
  | TIf _ thenBranch elseIfs elseBranch =>
      block thenBranch && forallb block elseIfs
      && match elseBranch with Some ss => block ss | None => true end
  | _ => true
  end.

Definition noDeadCodeInBlock (ss : list Tree) : bool :=
  liveStatements ss && forallb noDeadCode ss.

(** ** What a stretch of the walk may change *)

(** From [d] to [d'] the walk is back at the same depth, has only used
    fresh references, has left every older frame but [top] alone, has
    pushed no diagnostic and has captured the returns [rs], all of which
    carry a value. *)
Definition advances (top : ref) (d d' : Driver) (rs : list ReturnInfo) : Prop :=
  stack d' = stack d
  ∧ fresh d ≤ fresh d'
  ∧ (∀ r, r < fresh d → r ≠ top →
       frames (world d') !! r = frames (world d) !! r)
  ∧ diagnostics (world d') = diagnostics (world d)
  ∧ returnInfos (world d') = returnInfos (world d) ++ rs
  ∧ Forall (λ r, hasValue r = true) rs.

(** The number of arms that no path falls through. *)
Definition returningArms (arms : list (list Tree)) : nat :=
  length (filter (λ ss, canFallThrough (outcomesOfBlock ss) = false) arms).

(** The arms of an if statement, in source order. *)
Definition armsOf (thenBranch : list Tree) (elseIfs : list (list Tree))
    (elseBranch : option (list Tree)) : list (list Tree) :=
  thenBranch :: elseIfs ++ match elseBranch with Some ss => [ss] | None => [] end.

(** The callbacks [cs], run inside an open straight-line block that is not
    yet flagged, complete; they flag that block as returning unless
    [falls], and then have captured at least one return. *)
Definition runsInBlock (severity : BsLintRules) (file : BscFile)
    (func : FunctionExpression) (isBranchedBlock : StatementInfo → bool)
    (cs : list Callback) (falls : bool) : Prop :=
  ∀ d p outer fp,
    stack d = p :: outer →
    frames (world d) !! p = Some fp →
    branches fp = Some 1%Z →
    returns fp = false →
    p < fresh d →
    ∃ d' rs,
      drive severity file func isBranchedBlock cs d = Normal d'
      ∧ advances p d d' rs
      ∧ frames (world d') !! p = Some (if falls then fp else set_returns fp)
      ∧ (falls = false → rs ≠ []).

(** The callbacks [cs], run directly inside an open if statement,
    complete and take [k] off its branch count. *)
Definition runsInIf (severity : BsLintRules) (file : BscFile)
    (func : FunctionExpression) (isBranchedBlock : StatementInfo → bool)
    (cs : list Callback) (k : nat) : Prop :=
  ∀ d i outer fi n,
    stack d = i :: outer →
    frames (world d) !! i = Some fi →
    isIfStatement (stat fi) = true →
    returns fi = false →
    branches fi = Some n →
    i < fresh d →
    ∃ d' rs,
      drive severity file func isBranchedBlock cs d = Normal d'
      ∧ advances i d d' rs
      ∧ frames (world d') !! i = Some (set_branches (n - Z.of_nat k) fi)
      ∧ (0 < k → rs ≠ []).

(** A statement without dead code whose returns all carry a value runs
    as [runsInBlock] says. *)
Definition statementRuns (severity : BsLintRules) (file : BscFile)
    (func : FunctionExpression) (isBranchedBlock : StatementInfo → bool)
    (t : Tree) : Prop :=
  noDeadCode t = true →
  allValued (outcomesOf t) = true →
  runsInBlock severity file func isBranchedBlock (callbacksOf t)
    (canFallThrough (outcomesOf t)).

(** ** Sample inputs *)

Definition pos (l c : nat) : Position := mkPosition l c.

Definition rangeOf (l c1 c2 : nat) : Range := mkRange (pos l c1) (pos l c2).

Definition sampleRules : BsLintRules :=
  {| unreachableCode := Information; consistentReturn := Error |}.

Definition sampleFile : BscFile := mkBscFile "source/main.brs".

(** [function f() as integer] *)
Definition functionAsInteger : FunctionExpression :=
  {| functionType := Some (mkToken TokenKind_Function (rangeOf 1 0 8));
     leftParen := mkToken TokenKind_Identifier (rangeOf 1 10 11);
     returnTypeToken := Some (mkToken TokenKind_Integer (rangeOf 1 16 23));
     rightParen := mkToken TokenKind_Identifier (rangeOf 1 11 12) |}.

(** [function f() as void] *)
Definition functionAsVoid : FunctionExpression :=
  {| functionType := Some (mkToken TokenKind_Function (rangeOf 1 0 8));
     leftParen := mkToken TokenKind_Identifier (rangeOf 1 10 11);
     returnTypeToken := Some (mkToken TokenKind_Void (rangeOf 1 16 20));
     rightParen := mkToken TokenKind_Identifier (rangeOf 1 11 12) |}.

(** [sub f()] *)
Definition subWithoutType : FunctionExpression :=
  {| functionType := Some (mkToken TokenKind_Sub (rangeOf 1 0 3));
     leftParen := mkToken TokenKind_Identifier (rangeOf 1 5 6);
     returnTypeToken := None;
     rightParen := mkToken TokenKind_Identifier (rangeOf 1 6 7) |}.

Definition literal1 : Expression := LiteralExpression "1".

(** [return 1] on line 2 *)
Definition returnOne : Statement :=
  mkStatement (ReturnStatement (Some literal1)) (Some (rangeOf 2 4 12)).

(** a bare [return] on line 3 *)
Definition returnNothing : Statement :=
  mkStatement (ReturnStatement None) (Some (rangeOf 3 4 10)).

(** [print "x"] on line 4 *)
Definition printX : Statement :=
  mkStatement (OtherStatement "print") (Some (rangeOf 4 4 13)).

(** a statement node without a range *)
Definition printWithoutRange : Statement :=
  mkStatement (OtherStatement "print") None.

(** a node of class [IfStatement] without its [elseIfs] field *)
Definition ifWithoutElseIfs : Statement :=
  mkStatement (IfStatement None) (Some (rangeOf 2 4 20)).

(** an if statement with one else-if arm *)
Definition ifWithOneElseIf : Statement :=
  mkStatement (IfStatement (Some [mkElseIf (VariableExpression "b")]))
    (Some (rangeOf 2 4 20)).

(** A world with one block frame, at reference 0, flagged as returning. *)
Definition returningBlock : World :=
  {| frames := {[ 0 := {| stat := blockStatement; branches := Some 1%Z;
                          returns := true |} ]};
     returnInfos := [mkReturnInfo returnOne true];
     diagnostics := [] |}.

(** The same frame before any return was seen. *)
Definition openBlockWorld : World :=
  {| frames := {[ 0 := {| stat := blockStatement; branches := Some 1%Z;
                          returns := false |} ]};
     returnInfos := [];
     diagnostics := [] |}.

(** One return with a value and one without, in a flagged block. *)
Definition mixedReturns : World :=
  {| frames := {[ 0 := {| stat := blockStatement; branches := Some 1%Z;
                          returns := true |} ]};
     returnInfos := [mkReturnInfo returnOne true;
                     mkReturnInfo returnNothing false];
     diagnostics := [] |}.

(** The lint state while the outermost block is being closed. *)
Definition outermost : LintState :=
  {| parent := None; ifs := None; branch := None |}.

Definition insideBlock0 : LintState :=
  {| parent := Some 0; ifs := None; branch := None |}.

(** [return 1] followed by [print "x"] *)
Definition returnThenPrint : list Tree :=
  [TReturn (Some (rangeOf 2 4 12)) (Some literal1);
   TOther "print" (Some (rangeOf 4 4 13))].

(** [if a then return 1 else if b then return 1 else return 1 end if] *)
Definition exhaustiveIf : list Tree :=
  [TIf (Some (rangeOf 2 4 20))
     [TReturn (Some (rangeOf 3 8 16)) (Some literal1)]
     [[TReturn (Some (rangeOf 5 8 16)) (Some literal1)]]
     (Some [TReturn (Some (rangeOf 7 8 16)) (Some literal1)])].

(** [if a then return 1 end if] followed by [return 1] *)
Definition ifThenReturn : list Tree :=
  [TIf (Some (rangeOf 2 4 20))
     [TReturn (Some (rangeOf 3 8 16)) (Some literal1)] [] None;
   TReturn (Some (rangeOf 5 4 12)) (Some literal1)].

(** * Further notions used to describe the callbacks *)

(** Closing a run of child blocks one after the other under one lint
    state, as happens for the arms of an if statement. *)
Definition closeBlocks (severity : BsLintRules) (file : BscFile)
    (func : FunctionExpression) (state : LintState)
    (children : list StatementInfo) (w : World) : World :=
  foldl (λ w closed, closeBlock severity file func state closed w) w children.

(** A captured record is about a return statement and says of it what
    [visitStatement] computes. *)
Definition faithfulRecord (r : ReturnInfo) : Prop :=
  isReturnStatement (ret_stat r) = true
  ∧ hasValue r = carriesValue (ret_stat r).

(** The number of frames of a run that are flagged as returning. *)
Definition returningCount (children : list StatementInfo) : nat :=
  length (filter (λ c, returns c = true) children).

(** ** More sample inputs *)

(** The frame of an if statement with one else-if arm, as [openBlock]
    leaves it. *)
Definition openedIf : StatementInfo :=
  {| stat := ifWithOneElseIf; branches := Some 3%Z; returns := false |}.

(** An arm that returned and one that did not. *)
Definition returnedArm : StatementInfo :=
  {| stat := blockStatement; branches := Some 1%Z; returns := true |}.

Definition fallingArm : StatementInfo :=
  {| stat := blockStatement; branches := Some 1%Z; returns := false |}.

(** A block at reference 0 holding the if statement at reference 1. *)
Definition insideIf : World :=
  {| frames := {[ 0 := fallingArm; 1 := openedIf ]};
     returnInfos := [];
     diagnostics := [] |}.

Definition insideIf1 : LintState :=
  {| parent := Some 1; ifs := None; branch := None |}.

(** [if a then return 1 end if], nothing after it *)
Definition ifWithoutElse : list Tree :=
  [TIf (Some (rangeOf 2 4 20))
     [TReturn (Some (rangeOf 3 8 16)) (Some literal1)] [] None].

(** An arm of the if statement at reference 1, at reference 2, and a
    block nested in that arm, at reference 3. *)
Definition nestedInArm : World :=
  {| frames := {[ 1 := openedIf; 2 := fallingArm; 3 := fallingArm ]};
     returnInfos := [];
     diagnostics := [] |}.

(** A lint state whose branch frame is not the enclosing frame. *)
Definition insideNested : LintState :=
  {| parent := Some 3; ifs := Some 1; branch := Some 2 |}.

(** * Properties of the Finalizer *)

Section finalizer_facts.

Variable severity : BsLintRules.
Variable file : BscFile.
Variable func : FunctionExpression.

Lemma isVoid_true : isVoid func = true ↔ declaredVoid func.
Proof.
  unfold isVoid, declaredVoid. split.
  - destruct (returnTypeToken func) as [t|]; [|done].
    destruct (tok_kind t) eqn:E; try done. eauto.
  - intros (t & -> & ->). done.
Qed.

Lemma isVoid_false : isVoid func = false ↔ ¬ declaredVoid func.
Proof. rewrite <- isVoid_true. destruct (isVoid func); naive_solver. Qed.

Lemma isFunctionKind_true :
  isFunctionKind func = true
  ↔ ∃ t, functionType func = Some t ∧ tok_kind t = TokenKind_Function.
Proof.
  unfold isFunctionKind. split.
  - destruct (functionType func) as [t|]; [|done].
    destruct (tok_kind t) eqn:E; try done. eauto.
  - intros (t & -> & ->). done.
Qed.

Lemma length_pos_iff {A} (l : list A) : (0 <? length l) = true ↔ l ≠ [].
Proof. destruct l; simpl; [naive_solver|]. split; [done|]. by intros _. Qed.

Lemma hasReturnedValue_true w :
  (0 <? length (returnedValues w)) = true ↔ someReturnHasValue w.
Proof.
  rewrite length_pos_iff. unfold returnedValues, someReturnHasValue. split.
  - intros Hne. destruct (filter _ _) as [|r l] eqn:E; [done|].
    pose proof (list_elem_of_here r l) as Hin. rewrite <- E in Hin.
    destruct (proj1 (list_elem_of_filter _ _ _) Hin). naive_solver.
  - intros (r & Hr & Hv) E.
    by apply (filter_nil_not_elem_of _ _ r E Hv).
Qed.

Lemma requiresReturnValue_true w :
  requiresReturnValue func w = true ↔ requiresValue func w.
Proof.
  unfold requiresReturnValue, requiresValue.
  rewrite !orb_true_iff, andb_true_iff, bool_decide_eq_true.
  rewrite hasReturnedValue_true, isFunctionKind_true, length_pos_iff.
  tauto.
Qed.

Lemma missingValue_true w :
  missingValue func w = true
  ↔ requiresValue func w ∧ length (returnedValues w) ≠ length (returnInfos w).
Proof.
  unfold missingValue.
  rewrite andb_true_iff, requiresReturnValue_true, negb_true_iff.
  rewrite Nat.eqb_neq. done.
Qed.

(** The filters partition the captured returns. *)
Lemma returns_partition w :
  length (returnedValues w)
  + length (filter (λ r, hasValue r = false) (returnInfos w))
  = length (returnInfos w).
Proof.
  unfold returnedValues. induction (returnInfos w) as [|r l IH]; [done|].
  rewrite !filter_cons. destruct (hasValue r) eqn:E.
  - rewrite decide_True by done. rewrite decide_False by done.
    simpl. lia.
  - rewrite decide_False by done. rewrite decide_True by done.
    simpl. lia.
Qed.

Lemma filter_code_fmap_same c (f : ReturnInfo → BsDiagnostic) (l : list ReturnInfo) :
  (∀ r, diag_code (f r) = c) → filter (hasCode c) (f <$> l) = f <$> l.
Proof.
  intros Hf. induction l as [|r l IH]; [done|].
  rewrite fmap_cons, filter_cons_True by apply Hf. by rewrite IH.
Qed.

Lemma filter_code_fmap_other c (f : ReturnInfo → BsDiagnostic) (l : list ReturnInfo) :
  (∀ r, diag_code (f r) ≠ c) → filter (hasCode c) (f <$> l) = [].
Proof.
  intros Hf. induction l as [|r l IH]; [done|].
  rewrite fmap_cons, filter_cons_False by apply Hf. done.
Qed.

End finalizer_facts.

(** ** The three diagnostics of the Finalizer *)

Section finalizer_diagnostics.

Variable severity : BsLintRules.
Variable file : BscFile.
Variable func : FunctionExpression.

Lemma finalize_diagnostics last w :
  diagnostics (finalize severity file func last w)
  = diagnostics w ++ finalize_emits severity file func last w.
Proof. done. Qed.

Lemma finalize_keeps last w :
  frames (finalize severity file func last w) = frames w
  ∧ returnInfos (finalize severity file func last w) = returnInfos w.
Proof. done. Qed.

(** Outside the void case the emitted list is the optional
    [UnsafeReturnValue] followed by the [ReturnValueMissing] records. *)
Lemma finalize_emits_not_void last w :
  ¬ declaredVoid func →
  finalize_emits severity file func last w
  = (if (requiresReturnValue func w || (0 <? length (returnedValues w)))
        && (negb (returns last) || (length (returnInfos w) =? 0))
     then [unsafeReturn severity file func] else [])
    ++ (if missingValue func w
        then valueMissing severity file func
               <$> filter (λ r, hasValue r = false) (returnInfos w)
        else []).
Proof.
  intros Hv. apply isVoid_false in Hv. unfold finalize_emits.
  by rewrite Hv.
Qed.

Lemma unsafe_condition_true last w :
  (requiresReturnValue func w || (0 <? length (returnedValues w)))
  && (negb (returns last) || (length (returnInfos w) =? 0)) = true
  ↔ (requiresValue func w ∨ someReturnHasValue w)
    ∧ (returns last = false ∨ length (returnInfos w) = 0).
Proof.
  rewrite andb_true_iff, !orb_true_iff, requiresReturnValue_true,
    hasReturnedValue_true, negb_true_iff, Nat.eqb_eq.
  done.
Qed.

End finalizer_diagnostics.

(** C1.  For a function that is not declared void, the Finalizer pushes
    the [UnsafeReturnValue] diagnostic ("Not all code paths return a
    value") exactly once, at the signature range, when (a value is required
    or some captured return carries a value) and (the outermost block is
    not flagged as returning or no return was captured); otherwise it
    pushes none.  A value is required when a return-type annotation is
    present, or some captured return carries a value, or the function-kind
    token is [function] and at least one return was captured. *)
Theorem finalize_unsafe_return_value
    (severity : BsLintRules) (file : BscFile) (func : FunctionExpression)
    (last : StatementInfo) (w : World) :
  ¬ declaredVoid func →
  let emitted := finalize_emits severity file func last w in
  let unsafe := filter (hasCode UnsafeReturnValue) emitted in
  let condition :=
    (requiresValue func w ∨ someReturnHasValue w)
    ∧ (returns last = false ∨ length (returnInfos w) = 0) in
  diagnostics (finalize severity file func last w) = diagnostics w ++ emitted
  ∧ (condition →
       ∃ d, unsafe = [d]
            ∧ diag_range d = Some (funRange func)
            ∧ diag_severity d = consistentReturn severity
            ∧ diag_message d = "Not all code paths return a value"%string)
  ∧ (¬ condition → unsafe = [])
  ∧ ((∃ d, d ∈ emitted ∧ diag_code d = UnsafeReturnValue) ↔ condition).
Proof.
  intros Hnv emitted unsafe condition.
  assert (unsafe =
          if (requiresReturnValue func w || (0 <? length (returnedValues w)))
             && (negb (returns last) || (length (returnInfos w) =? 0))
          then [unsafeReturn severity file func] else []) as Hunsafe.
  { unfold unsafe, emitted. rewrite finalize_emits_not_void by done.
    rewrite filter_app.
    assert (filter (hasCode UnsafeReturnValue)
              (if missingValue func w
               then valueMissing severity file func
                      <$> filter (λ r, hasValue r = false) (returnInfos w)
               else []) = []) as ->.
    { destruct (missingValue func w); [|done].
      by apply filter_code_fmap_other. }
    rewrite app_nil_r. by destruct (_ && _). }
  assert ((requiresReturnValue func w || (0 <? length (returnedValues w)))
          && (negb (returns last) || (length (returnInfos w) =? 0)) = true
          ↔ condition) as Hc by apply unsafe_condition_true.
  split; [done|].
  split; [|split].
  - intros Hcond. apply Hc in Hcond. rewrite Hunsafe, Hcond. eauto.
  - intros Hcond. rewrite Hunsafe.
    destruct (_ && _); [|done]. destruct Hcond. by apply Hc.
  - rewrite <- Hc. split.
    + intros (d & Hd & Hcode).
      assert (d ∈ unsafe) as Hin by (by apply list_elem_of_filter).
      rewrite Hunsafe in Hin. destruct (_ && _); [done|].
      by apply not_elem_of_nil in Hin.
    + intros Hb. exists (unsafeReturn severity file func).
      assert (unsafeReturn severity file func ∈ unsafe) as Hin
        by (rewrite Hunsafe, Hb; left).
      destruct (proj1 (list_elem_of_filter _ _ _) Hin). done.
Qed.

(** C6.  For a function declared void, the Finalizer pushes exactly one
    [ReturnValueUnexpected] diagnostic per captured return that carries a
    value, in order, at that return's range (the signature range when the
    return has none), and nothing else, whatever the outermost block's flag
    and the other returns are. *)
Theorem finalize_void_unexpected_value
    (severity : BsLintRules) (file : BscFile) (func : FunctionExpression)
    (last : StatementInfo) (w : World) :
  declaredVoid func →
  let emitted := finalize_emits severity file func last w in
  diagnostics (finalize severity file func last w) = diagnostics w ++ emitted
  ∧ emitted
    = (λ r, {| diag_severity := consistentReturn severity;
               diag_code := ReturnValueUnexpected;
               diag_message := "Function as void should not return a value";
               diag_range :=
                 Some (match stat_range (ret_stat r) with
                       | Some rg => rg
                       | None => funRange func
                       end);
               diag_file := file;
               diag_tags := [] |})
      <$> filter (λ r, hasValue r = true) (returnInfos w)
  ∧ length emitted = length (filter (λ r, hasValue r = true) (returnInfos w))
  ∧ filter (hasCode UnsafeReturnValue) emitted = []
  ∧ filter (hasCode ReturnValueMissing) emitted = [].
Proof.
  intros Hv emitted. apply isVoid_true in Hv.
  assert (emitted = unexpectedValue severity file func <$> returnedValues w)
    as Hem.
  { unfold emitted, finalize_emits. rewrite Hv.
    destruct (0 <? length (returnedValues w)) eqn:E; [done|].
    destruct (returnedValues w); [done|]. done. }
  split; [done|]. split; [by rewrite Hem|].
  split; [by rewrite Hem, length_fmap|].
  rewrite Hem. split; by apply filter_code_fmap_other.
Qed.

(** C7.  For a function that is not declared void, the Finalizer pushes
    [ReturnValueMissing] diagnostics if and only if a value is required and
    the number of value-carrying captured returns differs from the number
    of captured returns; it then pushes exactly one per captured return
    lacking a value, in order, at that return's range (the signature range
    when the return has none). *)
Theorem finalize_return_value_missing
    (severity : BsLintRules) (file : BscFile) (func : FunctionExpression)
    (last : StatementInfo) (w : World) :
  ¬ declaredVoid func →
  let emitted := finalize_emits severity file func last w in
  let missing := filter (hasCode ReturnValueMissing) emitted in
  let withValue := filter (λ r, hasValue r = true) (returnInfos w) in
  let withoutValue := filter (λ r, hasValue r = false) (returnInfos w) in
  let condition :=
    requiresValue func w ∧ length withValue ≠ length (returnInfos w) in
  ((∃ d, d ∈ emitted ∧ diag_code d = ReturnValueMissing) ↔ condition)
  ∧ (condition →
       missing
       = (λ r, {| diag_severity := consistentReturn severity;
                  diag_code := ReturnValueMissing;
                  diag_message :=
                    "This function should consistently return a value";
                  diag_range :=
                    Some (match stat_range (ret_stat r) with
                          | Some rg => rg
                          | None => funRange func
                          end);
                  diag_file := file;
                  diag_tags := [] |}) <$> withoutValue
       ∧ length missing = length withoutValue
       ∧ 0 < length missing)
  ∧ (¬ condition → missing = []).
Proof.
  intros Hnv emitted missing withValue withoutValue condition.
  assert (missing =
          if missingValue func w
          then valueMissing severity file func <$> withoutValue else [])
    as Hmissing.
  { unfold missing, emitted. rewrite finalize_emits_not_void by done.
    rewrite filter_app.
    assert (filter (hasCode ReturnValueMissing)
              (if (requiresReturnValue func w
                   || (0 <? length (returnedValues w)))
                  && (negb (returns last) || (length (returnInfos w) =? 0))
               then [unsafeReturn severity file func] else []) = []) as ->.
    { by destruct (_ && _). }
    simpl. destruct (missingValue func w); [|done].
    by apply filter_code_fmap_same. }
  assert (missingValue func w = true ↔ condition) as Hc
    by apply missingValue_true.
  assert (length withValue + length withoutValue = length (returnInfos w))
    as Hpart by apply returns_partition.
  assert (condition → 0 < length withoutValue) as Hpos.
  { intros [_ Hne]. lia. }
  split; [|split].
  - rewrite <- Hc. split.
    + intros (d & Hd & Hcode).
      assert (d ∈ missing) as Hin by (by apply list_elem_of_filter).
      rewrite Hmissing in Hin. destruct (missingValue func w); [done|].
      by apply not_elem_of_nil in Hin.
    + intros Hb. apply Hc in Hb. specialize (Hpos Hb).
      destruct withoutValue as [|r l] eqn:E; [simpl in Hpos; lia|].
      exists (valueMissing severity file func r).
      assert (valueMissing severity file func r ∈ missing) as Hin.
      { rewrite Hmissing. apply Hc in Hb. rewrite Hb. left. }
      destruct (proj1 (list_elem_of_filter _ _ _) Hin). done.
  - intros Hcond. specialize (Hpos Hcond). apply Hc in Hcond.
    rewrite Hmissing, Hcond. split; [done|].
    rewrite length_fmap. done.
  - intros Hcond. rewrite Hmissing.
    destruct (missingValue func w); [|done]. destruct Hcond. by apply Hc.
Qed.

(** * Properties of the three callbacks *)

Section callback_facts.

Variable severity : BsLintRules.
Variable file : BscFile.

Lemma alter_as_insert (f : StatementInfo → StatementInfo)
    (h : gmap ref StatementInfo) (i : ref) (b : StatementInfo) :
  h !! i = Some b → alter f i h = <[i := f b]> h.
Proof.
  intros Hi. apply map_eq. intros j. rewrite lookup_alter, lookup_insert.
  case_decide; [subst; by rewrite Hi|done].
Qed.

Lemma deref_Some w r i b :
  deref w r = Some (i, b) ↔ r = Some i ∧ frames w !! i = Some b.
Proof.
  unfold deref. destruct r as [j|]; simpl; [|naive_solver].
  destruct (frames w !! j) eqn:E; simpl; naive_solver.
Qed.

Lemma parentReturns_true state w :
  from_option (λ p, returns p.2) false (deref w (parent state)) = true
  ↔ parentReturns state w.
Proof.
  unfold parentReturns.
  destruct (deref w (parent state)) as [[p b]|]; simpl; naive_solver.
Qed.

Lemma parentReturns_false state w :
  from_option (λ p, returns p.2) false (deref w (parent state)) = false
  ↔ ¬ parentReturns state w.
Proof.
  rewrite <- parentReturns_true. destruct (from_option _ _ _); naive_solver.
Qed.

Lemma parentHasOneBranch_decide state w :
  bool_decide ((branches ∘ snd <$> deref w (parent state)) = Some (Some 1%Z))
  = true ↔ parentHasOneBranch state w.
Proof.
  rewrite bool_decide_eq_true. unfold parentHasOneBranch.
  destruct (deref w (parent state)) as [[p b]|]; simpl.
  - split; [intros [= ?]; eauto|]. intros (? & ? & [= <- <-] & ->). done.
  - split; [done|]. intros (? & ? & [=] & _).
Qed.

Lemma visitStatement_when_unreachable state curr w :
  parentReturns state w →
  visitStatement severity file state curr w
  = if isCommentStatement (stat curr) then w
    else push_diagnostics [unreachable severity file curr] w.
Proof.
  intros Hp. apply parentReturns_true in Hp. unfold visitStatement.
  rewrite Hp. by destruct (isCommentStatement _).
Qed.

Lemma visitStatement_frames_unreachable state curr w :
  parentReturns state w →
  parentReturns state (visitStatement severity file state curr w).
Proof.
  intros Hp. rewrite visitStatement_when_unreachable by done.
  by destruct (isCommentStatement _).
Qed.

Lemma visitStatements_when_unreachable state currs w :
  parentReturns state w →
  visitStatements severity file state currs w
  = push_diagnostics
      (unreachable severity file
         <$> filter (λ c, isCommentStatement (stat c) = false) currs) w.
Proof.
  revert w. induction currs as [|c currs IH]; intros w Hp.
  - destruct w. unfold push_diagnostics. simpl. by rewrite app_nil_r.
  - unfold visitStatements in *. simpl. rewrite IH
      by by apply visitStatement_frames_unreachable.
    rewrite visitStatement_when_unreachable by done.
    rewrite filter_cons. destruct (isCommentStatement (stat c)).
    + by rewrite decide_False.
    + rewrite decide_True by done. unfold push_diagnostics. simpl.
      by rewrite <- app_assoc.
Qed.

Lemma visitStatement_reachable_return state curr w :
  ¬ parentReturns state w →
  isReturnStatement (stat curr) = true →
  visitStatement severity file state curr w
  = let w1 := push_return {| ret_stat := stat curr;
                             hasValue := carriesValue (stat curr) |} w in
    match governingBlock state w with
    | Some (rb, _) =>
        if bool_decide ((branches ∘ snd <$> deref w (parent state))
                        = Some (Some 1%Z))
        then with_frames (alter set_returns rb (frames w1)) w1
        else w1
    | None => w1
    end.
Proof.
  intros Hp Hret. apply parentReturns_false in Hp.
  unfold visitStatement. by rewrite Hp, Hret.
Qed.

Lemma visitStatement_reachable_other state curr w :
  ¬ parentReturns state w →
  isReturnStatement (stat curr) = false →
  visitStatement severity file state curr w = w.
Proof.
  intros Hp Hret. apply parentReturns_false in Hp.
  unfold visitStatement. by rewrite Hp, Hret.
Qed.

End callback_facts.

(** C5.  When the frame of the enclosing block is already flagged as
    returning, visiting a statement that is not a comment pushes exactly
    one [UnreachableCode] diagnostic: at the statement's range, with the
    severity of the [unreachableCode] rule and the [Unnecessary] tag.
    Visiting a comment pushes nothing.  Frames and captured returns are
    left alone, so each statement of a run of unreachable statements gets
    its own diagnostic, not just the first. *)
Theorem visitStatement_unreachable_code
    (severity : BsLintRules) (file : BscFile) (state : LintState)
    (curr : StatementInfo) (w : World) :
  parentReturns state w →
  let w' := visitStatement severity file state curr w in
  let diagnostic (c : StatementInfo) :=
    {| diag_severity := unreachableCode severity;
       diag_code := UnreachableCode;
       diag_message := "Unreachable code";
       diag_range := stat_range (stat c);
       diag_file := file;
       diag_tags := [Unnecessary] |} in
  frames w' = frames w
  ∧ returnInfos w' = returnInfos w
  ∧ (isCommentStatement (stat curr) = false →
       diagnostics w' = diagnostics w ++ [diagnostic curr])
  ∧ (isCommentStatement (stat curr) = true → diagnostics w' = diagnostics w)
  ∧ ∀ currs : list StatementInfo,
      diagnostics (visitStatements severity file state currs w)
      = diagnostics w
        ++ (diagnostic
              <$> filter (λ c, isCommentStatement (stat c) = false) currs).
Proof.
  intros Hp w' diagnostic. unfold w'.
  rewrite visitStatement_when_unreachable by done.
  repeat split.
  - by destruct (isCommentStatement _).
  - by destruct (isCommentStatement _).
  - by intros ->.
  - by intros ->.
  - intros currs. by rewrite visitStatements_when_unreachable.
Qed.

(** C3.  When the enclosing block is not flagged as returning and the
    visited statement is a [return], exactly one record is appended to the
    captured returns; it carries a value exactly when the return has an
    operand that is not a comment.  The governing block (the branch frame
    when inside an if statement, the enclosing frame otherwise) is then
    flagged as returning exactly when the enclosing frame has one branch;
    otherwise no frame changes.  No diagnostic is pushed. *)
Theorem visitStatement_return
    (severity : BsLintRules) (file : BscFile) (state : LintState)
    (curr : StatementInfo) (w : World) :
  ¬ parentReturns state w →
  isReturnStatement (stat curr) = true →
  let w' := visitStatement severity file state curr w in
  (∃ r, returnInfos w' = returnInfos w ++ [r]
        ∧ ret_stat r = stat curr
        ∧ (hasValue r = true
           ↔ ∃ e, stat_kind (stat curr) = ReturnStatement (Some e)
                  ∧ e ≠ CommentOperand))
  ∧ diagnostics w' = diagnostics w
  ∧ (∀ g gb, governingBlock state w = Some (g, gb) →
       parentHasOneBranch state w →
       frames w' = <[g := set_returns gb]> (frames w))
  ∧ (¬ parentHasOneBranch state w → frames w' = frames w)
  ∧ (governingBlock state w = None → frames w' = frames w).
Proof.
  intros Hp Hret w'.
  pose proof (visitStatement_reachable_return severity file state curr w
                Hp Hret) as Hw'.
  fold w' in Hw'.
  pose proof (parentHasOneBranch_decide state w) as Hone.
  split; [|split; [|split; [|split]]].
  - exists {| ret_stat := stat curr; hasValue := carriesValue (stat curr) |}.
    split; [|split; [done|]].
    + rewrite Hw'. simpl. destruct (governingBlock state w) as [[rb ?]|];
        [|done]. by destruct (bool_decide _).
    + simpl. unfold carriesValue, stat_value, isReturnStatement in *.
      destruct (stat_kind (stat curr)) as [?|[e|]| | |?]; try done.
      * destruct e; simpl; split; try done; eauto.
        intros (e & [= <-] & He). done.
      * split; [done|]. intros (e & [=] & _).
  - rewrite Hw'. simpl. destruct (governingBlock state w) as [[rb ?]|];
      [|done]. by destruct (bool_decide _).
  - intros g gb Hg H1. apply Hone in H1. rewrite Hw', Hg. simpl.
    rewrite H1. simpl. apply alter_as_insert.
    unfold governingBlock in Hg.
    destruct (deref w (ifs state)); by apply deref_Some in Hg as [_ ?].
  - intros H1. rewrite Hw'. simpl.
    destruct (governingBlock state w) as [[rb ?]|]; [|done].
    clear Hone. destruct (bool_decide _) eqn:E; [|done].
    by apply parentHasOneBranch_decide in E.
  - intros Hg. by rewrite Hw', Hg.
Qed.

(** C10.  A [return] visited while the enclosing block is already flagged
    as returning is not appended to the captured returns and changes no
    frame; whatever the Finalizer later computes from the captured returns
    (the requirement of a value, the missing-value test and every
    diagnostic it pushes) is therefore the same as if that return had not
    been visited. *)
Theorem unreachable_return_is_ignored
    (severity : BsLintRules) (file : BscFile) (func : FunctionExpression)
    (state : LintState) (curr : StatementInfo) (w : World) :
  parentReturns state w →
  isReturnStatement (stat curr) = true →
  let w' := visitStatement severity file state curr w in
  returnInfos w' = returnInfos w
  ∧ frames w' = frames w
  ∧ requiresReturnValue func w' = requiresReturnValue func w
  ∧ missingValue func w' = missingValue func w
  ∧ ∀ last, finalize_emits severity file func last w'
            = finalize_emits severity file func last w.
Proof.
  intros Hp Hret w'. unfold w'.
  rewrite visitStatement_when_unreachable by done.
  destruct (isCommentStatement (stat curr)); done.
Qed.

(** * Opening and closing blocks *)

Lemma branchesCount_if b elseIfs :
  stat_kind (stat b) = IfStatement (Some elseIfs) →
  branchesCount b = Normal (1 + Z.of_nat (length elseIfs) + 1)%Z.
Proof. unfold branchesCount. by intros ->. Qed.

Lemma branchesCount_other b :
  isIfStatement (stat b) = false → branchesCount b = Normal 2%Z.
Proof.
  unfold branchesCount, isIfStatement. by destruct (stat_kind (stat b)).
Qed.

Lemma branchesCount_total b :
  hasDeclaredFields (stat b) → ∃ n, branchesCount b = Normal n ∧ (2 ≤ n)%Z.
Proof.
  unfold hasDeclaredFields, branchesCount.
  destruct (stat_kind (stat b)) as [[l|]| | | |]; intros H; [|done|..];
    eexists; (split; [done|lia]).
Qed.

Lemma openBlock_straight isBranchedBlock block :
  isBranchedBlock block = false →
  openBlock isBranchedBlock block = Normal (set_branches 1 block).
Proof. unfold openBlock. by intros ->. Qed.

Lemma openBlock_branched isBranchedBlock block n :
  isBranchedBlock block = true →
  branchesCount block = Normal n →
  openBlock isBranchedBlock block = Normal (set_branches n block).
Proof. unfold openBlock. by intros -> ->. Qed.

(** C2.  [openBlock] gives the opened frame its branch count and changes
    nothing else: for an if statement, one for the primary arm, one per
    else-if arm and one for the final arm, whether or not an else arm is
    written; two for any other branch-introducing statement; one for a
    statement that is not branch-introducing.  [branchesCount] takes no
    state, and returns a count on every statement that has the fields its
    class declares. *)
Theorem openBlock_branch_count
    (isBranchedBlock : StatementInfo → bool) (block : StatementInfo) :
  (∀ b, isIfStatement (stat b) = true → isBranchedBlock b = true) →
  hasDeclaredFields (stat block) →
  (∃ n, openBlock isBranchedBlock block
        = Normal {| stat := stat block; branches := Some n;
                    returns := returns block |}
        ∧ (∀ elseIfs, stat_kind (stat block) = IfStatement (Some elseIfs) →
             n = (1 + Z.of_nat (length elseIfs) + 1)%Z)
        ∧ (isBranchedBlock block = true →
           isIfStatement (stat block) = false → n = 2%Z)
        ∧ (isBranchedBlock block = false → n = 1%Z))
  ∧ (∃ n, branchesCount block = Normal n).
Proof.
  intros Hif Hwf. split.
  - destruct (isBranchedBlock block) eqn:Hb.
    + destruct (branchesCount_total block Hwf) as (n & Hn & _).
      exists n. rewrite (openBlock_branched _ _ n) by done.
      split; [done|]. split; [|split; [|done]].
      * intros elseIfs Hk. rewrite (branchesCount_if _ elseIfs) in Hn by done.
        congruence.
      * intros _ Hnot. rewrite branchesCount_other in Hn by done. congruence.
    + exists 1%Z. rewrite openBlock_straight by done.
      split; [done|]. split; [|done].
      intros elseIfs Hk.
      assert (isIfStatement (stat block) = true) as Hi
        by (unfold isIfStatement; by rewrite Hk).
      apply Hif in Hi. congruence.
  - destruct (branchesCount_total block Hwf) as (n & Hn & _). eauto.
Qed.

Section closing.

Variable severity : BsLintRules.
Variable file : BscFile.
Variable func : FunctionExpression.

Lemma closeBlock_outermost state closed w :
  deref w (parent state) = None →
  closeBlock severity file func state closed w
  = finalize severity file func closed w.
Proof. unfold closeBlock. by intros ->. Qed.

Lemma closeBlock_if state closed w p pf :
  deref w (parent state) = Some (p, pf) →
  isIfStatement (stat closed) = true →
  closeBlock severity file func state closed w
  = if bool_decide (branches closed = Some 0%Z)
    then with_frames (<[p := set_returns pf]> (frames w)) w
    else w.
Proof.
  intros Hp Hc. unfold closeBlock. rewrite Hp, Hc.
  case_bool_decide; [|done].
  rewrite (alter_as_insert _ _ _ pf); [done|].
  by apply deref_Some in Hp as [_ ?].
Qed.

Lemma closeBlock_straight state closed w p pf :
  deref w (parent state) = Some (p, pf) →
  isIfStatement (stat closed) = false →
  closeBlock severity file func state closed w
  = if returns closed && isIfStatement (stat pf)
    then with_frames
           (<[p := set_branches (default 2 (branches pf) - 1)%Z pf]>
              (frames w)) w
    else w.
Proof.
  intros Hp Hc. unfold closeBlock. rewrite Hp, Hc.
  destruct (returns closed); [|done]. simpl.
  destruct (isIfStatement (stat pf)); [|done].
  rewrite (alter_as_insert _ _ _ pf); [done|].
  by apply deref_Some in Hp as [_ ?].
Qed.

End closing.

(** C4.  [closeBlock] reconciles the closed frame with the enclosing one.
    Without an enclosing frame it runs the Finalizer on the closed frame.
    With one, it pushes no diagnostic and records no return, and: if the
    closed statement is an if statement whose branch count is zero, the
    enclosing frame is flagged as returning; if the closed frame is not an
    if statement, is flagged as returning and the enclosing statement is an
    if statement, the enclosing frame's branch count goes down by one (from
    two when it had none); in every other case no frame changes.  The other
    callbacks never run the Finalizer: [visitStatement] pushes nothing but
    [UnreachableCode], and [openBlock] has no access to the diagnostics. *)
Theorem closeBlock_reconciles
    (severity : BsLintRules) (file : BscFile) (func : FunctionExpression)
    (state : LintState) (closed : StatementInfo) (w : World) :
  let w' := closeBlock severity file func state closed w in
  (deref w (parent state) = None →
     w' = finalize severity file func closed w)
  ∧ (∀ p pf, deref w (parent state) = Some (p, pf) →
       returnInfos w' = returnInfos w
       ∧ diagnostics w' = diagnostics w
       ∧ (isIfStatement (stat closed) = true →
          branches closed = Some 0%Z →
          frames w' = <[p := {| stat := stat pf; branches := branches pf;
                                returns := true |}]> (frames w))
       ∧ (isIfStatement (stat closed) = true →
          branches closed ≠ Some 0%Z → frames w' = frames w)
       ∧ (isIfStatement (stat closed) = false →
          returns closed = true →
          isIfStatement (stat pf) = true →
          frames w'
          = <[p := {| stat := stat pf;
                      branches := Some (match branches pf with
                                        | Some n => n - 1
                                        | None => 2 - 1
                                        end)%Z;
                      returns := returns pf |}]> (frames w))
       ∧ (isIfStatement (stat closed) = false →
          returns closed = false ∨ isIfStatement (stat pf) = false →
          frames w' = frames w))
  ∧ (∀ curr, ∃ ds,
       diagnostics (visitStatement severity file state curr w)
       = diagnostics w ++ ds
       ∧ Forall (hasCode UnreachableCode) ds).
Proof.
  intros w'. split; [|split].
  - apply closeBlock_outermost.
  - intros p pf Hp. unfold w'.
    destruct (isIfStatement (stat closed)) eqn:Hc.
    + rewrite (closeBlock_if _ _ _ _ _ _ p pf) by done.
      case_bool_decide as Hz; repeat split; try done.
    + rewrite (closeBlock_straight _ _ _ _ _ _ p pf) by done.
      destruct (returns closed), (isIfStatement (stat pf));
        repeat split; try done; simpl.
      * intros _ _ _. by destruct (branches pf).
      * by intros _ [|].
  - intros curr.
    destruct (from_option (λ p, returns p.2) false (deref w (parent state)))
      eqn:Hp; [apply parentReturns_true in Hp|apply parentReturns_false in Hp].
    + rewrite visitStatement_when_unreachable by done.
      destruct (isCommentStatement (stat curr)).
      * exists []. by rewrite app_nil_r.
      * exists [unreachable severity file curr]. split; [done|].
        by repeat constructor.
    + exists []. rewrite app_nil_r. split; [|done].
      destruct (isReturnStatement (stat curr)) eqn:Hr.
      * rewrite visitStatement_reachable_return by done. simpl.
        destruct (governingBlock state w) as [[? ?]|]; [|done].
        by destruct (bool_decide _).
      * by rewrite visitStatement_reachable_other.
Qed.

(** * Statements that lack a field *)

(** C9, as the code has it.  On every statement that has the fields its
    class declares, [openBlock] returns normally; a statement that is not
    branch-introducing is opened as a straight-line block, with one branch.
    Every diagnostic the Finalizer pushes has a range: the range of the
    return it is about, or the signature range when that return has none.
    A diagnostic pushed by [visitStatement] is an [UnreachableCode] that
    has the range of the visited statement whenever that statement has
    one. *)
Theorem callbacks_on_declared_shapes
    (severity : BsLintRules) (file : BscFile) (func : FunctionExpression)
    (isBranchedBlock : StatementInfo → bool) :
  (∀ block, hasDeclaredFields (stat block) →
     ∃ n, openBlock isBranchedBlock block
          = Normal {| stat := stat block; branches := Some n;
                      returns := returns block |})
  ∧ (∀ block, isBranchedBlock block = false →
       openBlock isBranchedBlock block
       = Normal {| stat := stat block; branches := Some 1%Z;
                   returns := returns block |})
  ∧ (∀ last w d, d ∈ finalize_emits severity file func last w →
       diag_range d = Some (funRange func)
       ∨ ∃ r rg, r ∈ returnInfos w
                 ∧ stat_range (ret_stat r) = Some rg
                 ∧ diag_range d = Some rg)
  ∧ (∀ state curr w d,
       d ∈ diagnostics (visitStatement severity file state curr w) →
       d ∈ diagnostics w
       ∨ (diag_code d = UnreachableCode
          ∧ ∀ rg, stat_range (stat curr) = Some rg → diag_range d = Some rg)).
Proof.
  split; [|split; [|split]].
  - intros block Hwf. destruct (isBranchedBlock block) eqn:Hb.
    + destruct (branchesCount_total block Hwf) as (n & Hn & _).
      exists n. by rewrite (openBlock_branched _ _ n).
    + exists 1%Z. by rewrite openBlock_straight.
  - intros block Hb. by rewrite openBlock_straight.
  - intros last w d Hd.
    assert (∀ (f : ReturnInfo → BsDiagnostic) (l : list ReturnInfo),
              (∀ r, diag_range (f r)
                    = Some (default (funRange func) (stat_range (ret_stat r)))) →
              (∀ r, r ∈ l → r ∈ returnInfos w) →
              d ∈ f <$> l →
              diag_range d = Some (funRange func)
              ∨ ∃ r rg, r ∈ returnInfos w
                        ∧ stat_range (ret_stat r) = Some rg
                        ∧ diag_range d = Some rg) as Hmap.
    { intros f l Hf Hl (r & -> & Hr)%list_elem_of_fmap. rewrite Hf.
      destruct (stat_range (ret_stat r)) as [rg|] eqn:E; [|by left].
      right. exists r, rg. split; [by apply Hl|done]. }
    unfold finalize_emits in Hd. destruct (isVoid func).
    + destruct (0 <? length (returnedValues w));
        [|by apply not_elem_of_nil in Hd].
      apply (Hmap (unexpectedValue severity file func) (returnedValues w));
        [done|clear Hd|done].
      intros r Hr. by apply list_elem_of_filter in Hr as [_ ?].
    + apply elem_of_app in Hd as [Hd|Hd].
      * destruct (_ && _); [|by apply not_elem_of_nil in Hd].
        apply list_elem_of_singleton in Hd as ->. by left.
      * destruct (missingValue func w); [|by apply not_elem_of_nil in Hd].
        apply (Hmap (valueMissing severity file func)
                 (filter (λ r, hasValue r = false) (returnInfos w)));
          [done|clear Hd|done].
        intros r Hr. by apply list_elem_of_filter in Hr as [_ ?].
  - intros state curr w d Hd.
    destruct (from_option (λ p, returns p.2) false (deref w (parent state)))
      eqn:Hp; [apply parentReturns_true in Hp|apply parentReturns_false in Hp].
    + rewrite visitStatement_when_unreachable in Hd by done.
      destruct (isCommentStatement (stat curr)); [by left|].
      simpl in Hd. apply elem_of_app in Hd as [Hd|Hd]; [by left|].
      apply list_elem_of_singleton in Hd as ->. right. split; [done|].
      by intros rg <-.
    + left. destruct (isReturnStatement (stat curr)) eqn:Hr.
      * rewrite visitStatement_reachable_return in Hd by done. simpl in Hd.
        destruct (governingBlock state w) as [[? ?]|]; [|done].
        by destruct (bool_decide _).
      * by rewrite visitStatement_reachable_other in Hd.
Qed.

(** An if statement without its [elseIfs] field makes [openBlock] throw,
    and an unreachable statement without a range gets a diagnostic without
    a range: the signature range is not used for it. *)
Lemma malformed_statements_break_the_guarantee :
  (∃ e, openBlock isBranchedBlock_of_tree (newFrame ifWithoutElseIfs)
        = Throws e)
  ∧ ∃ d,
      diagnostics (visitStatement sampleRules sampleFile insideBlock0
                     (newFrame printWithoutRange) returningBlock) = [d]
      ∧ diag_range d = None.
Proof.
  split.
  - eexists. reflexivity.
  - eexists. split; vm_compute; reflexivity.
Qed.

Lemma callbacks_on_declared_shapes_witness :
  openBlock isBranchedBlock_of_tree (newFrame blockStatement)
  = Normal {| stat := blockStatement; branches := Some 1%Z; returns := false |}.
Proof.
  apply (proj1 (proj2 (callbacks_on_declared_shapes sampleRules sampleFile
                         functionAsInteger isBranchedBlock_of_tree))
           (newFrame blockStatement)).
  reflexivity.
Defined.

(** * Facts about statement trees and their execution paths *)

Lemma canFallThrough_app os1 os2 :
  canFallThrough (os1 ++ os2) = canFallThrough os1 || canFallThrough os2.
Proof. apply existsb_app. Qed.

Lemma allValued_app os1 os2 :
  allValued (os1 ++ os2) = allValued os1 && allValued os2.
Proof. apply forallb_app. Qed.

Lemma inSequence_cons os rest :
  inSequence (os :: rest)
  = concat (map (λ o, match o with
                      | FallsThrough => inSequence rest
                      | Returned v => [Returned v]
                      end) os).
Proof. done. Qed.

Lemma canFallThrough_inSequence os rest :
  canFallThrough (inSequence (os :: rest))
  = canFallThrough os && canFallThrough (inSequence rest).
Proof.
  rewrite inSequence_cons. induction os as [|o os IH]; [done|].
  simpl map. simpl concat. rewrite canFallThrough_app, IH.
  destruct o as [|v]; simpl.
  - by destruct (canFallThrough (inSequence rest)), (canFallThrough os).
  - done.
Qed.

Lemma allValued_inSequence os rest :
  allValued (inSequence (os :: rest))
  = allValued os && (negb (canFallThrough os) || allValued (inSequence rest)).
Proof.
  rewrite inSequence_cons. induction os as [|o os IH]; [done|].
  simpl map. simpl concat. rewrite allValued_app, IH.
  destruct o as [|[]]; simpl.
  - by destruct (allValued (inSequence rest)), (allValued os),
      (canFallThrough os).
  - done.
  - done.
Qed.

Lemma outcomesOfBlock_cons s ss :
  outcomesOfBlock (s :: ss) = inSequence (outcomesOf s :: map outcomesOf ss).
Proof. done. Qed.

Lemma canFallThrough_block_cons s ss :
  canFallThrough (outcomesOfBlock (s :: ss))
  = canFallThrough (outcomesOf s) && canFallThrough (outcomesOfBlock ss).
Proof. apply canFallThrough_inSequence. Qed.

Lemma allValued_block_cons s ss :
  allValued (outcomesOfBlock (s :: ss))
  = allValued (outcomesOf s)
    && (negb (canFallThrough (outcomesOf s)) || allValued (outcomesOfBlock ss)).
Proof. apply allValued_inSequence. Qed.

Lemma comments_fall_through ss :
  forallb isComment ss = true →
  canFallThrough (outcomesOfBlock ss) = true.
Proof.
  induction ss as [|s ss IH]; [done|]. simpl. intros [Hs Hss]%andb_true_iff.
  rewrite canFallThrough_block_cons, IH by done. by destruct s.
Qed.

Lemma everyPathReturnsValue_split body :
  everyPathReturnsValue body = true
  ↔ canFallThrough (outcomesOfBlock body) = false
    ∧ allValued (outcomesOfBlock body) = true.
Proof.
  unfold everyPathReturnsValue, canFallThrough, allValued.
  induction (outcomesOfBlock body) as [|o os IH]; [done|].
  simpl. rewrite andb_true_iff, IH, orb_false_iff, andb_true_iff.
  destruct o as [|[]]; simpl; naive_solver.
Qed.

Lemma outcomesOf_if r t es e :
  outcomesOf (TIf r t es e)
  = outcomesOfBlock t ++ concat (map outcomesOfBlock es)
    ++ match e with Some ss => outcomesOfBlock ss | None => [FallsThrough] end.
Proof. done. Qed.

Lemma noDeadCode_if r t es e :
  noDeadCode (TIf r t es e)
  = noDeadCodeInBlock t && forallb noDeadCodeInBlock es
    && match e with Some ss => noDeadCodeInBlock ss | None => true end.
Proof. done. Qed.

Lemma callbacksOf_if r t es e :
  callbacksOf (TIf r t es e)
  = [CallVisitStatement (statementOf (TIf r t es e));
     CallOpenBlock (statementOf (TIf r t es e))]
    ++ (concat (map callbacksOfBlock (armsOf t es e)) ++ [CallCloseBlock]).
Proof.
  change (callbacksOf (TIf r t es e))
    with ([CallVisitStatement (statementOf (TIf r t es e));
           CallOpenBlock (statementOf (TIf r t es e))]
          ++ callbacksOfBlock t ++ concat (map callbacksOfBlock es)
          ++ match e with Some ss => callbacksOfBlock ss | None => [] end
          ++ [CallCloseBlock]).
  f_equal. unfold armsOf. rewrite map_cons, map_app, concat_cons, concat_app.
  rewrite <- !app_assoc. do 2 f_equal.
  destruct e; simpl; by rewrite ?app_nil_r.
Qed.

Lemma returningArms_cons ss arms :
  returningArms (ss :: arms)
  = (if canFallThrough (outcomesOfBlock ss) then 0 else 1) + returningArms arms.
Proof.
  unfold returningArms. rewrite filter_cons.
  destruct (canFallThrough (outcomesOfBlock ss)).
  - by rewrite decide_False.
  - by rewrite decide_True.
Qed.

Lemma returningArms_le arms : returningArms arms ≤ length arms.
Proof. apply length_filter. Qed.

Lemma returningArms_app arms1 arms2 :
  returningArms (arms1 ++ arms2) = returningArms arms1 + returningArms arms2.
Proof. unfold returningArms. by rewrite filter_app, length_app. Qed.

(** No arm lets a path fall through exactly when all arms are counted. *)
Lemma arms_all_return arms :
  canFallThrough (concat (map outcomesOfBlock arms)) = false
  ↔ returningArms arms = length arms.
Proof.
  induction arms as [|ss arms IH]; [done|].
  rewrite map_cons, concat_cons, canFallThrough_app, returningArms_cons.
  rewrite orb_false_iff, IH. pose proof (returningArms_le arms).
  destruct (canFallThrough (outcomesOfBlock ss)); simpl.
  - split; [by intros [? _]|lia].
  - split; [intros [_ ->]; done|]. intros [= ->]. done.
Qed.

(** An if statement lets no path fall through exactly when it has an else
    arm and the count of returning arms is its branch count. *)
Lemma if_returns_iff r t es e :
  canFallThrough (outcomesOf (TIf r t es e)) = false
  ↔ returningArms (armsOf t es e) = 1 + length es + 1.
Proof.
  rewrite outcomesOf_if. unfold armsOf.
  rewrite !canFallThrough_app, !orb_false_iff, arms_all_return.
  rewrite returningArms_cons, returningArms_app.
  pose proof (returningArms_le es) as Hle.
  destruct e as [ss|].
  - rewrite returningArms_cons. change (returningArms []) with 0.
    destruct (canFallThrough (outcomesOfBlock t)),
      (canFallThrough (outcomesOfBlock ss)); split;
      try lia; try naive_solver.
  - change (returningArms []) with 0. split; [by intros (_ & _ & ?)|].
    destruct (canFallThrough (outcomesOfBlock t)); lia.
Qed.

Lemma allValued_concat arms :
  allValued (concat (map outcomesOfBlock arms)) = true
  ↔ Forall (λ ss, allValued (outcomesOfBlock ss) = true) arms.
Proof.
  induction arms as [|ss arms IH]; [done|].
  rewrite map_cons, concat_cons, allValued_app, andb_true_iff, IH.
  by rewrite Forall_cons.
Qed.

Lemma if_allValued r t es e :
  allValued (outcomesOf (TIf r t es e)) = true →
  Forall (λ ss, allValued (outcomesOfBlock ss) = true) (armsOf t es e).
Proof.
  rewrite outcomesOf_if, !allValued_app, !andb_true_iff.
  intros (Ht & Hes & He). unfold armsOf.
  apply Forall_cons. split; [done|]. apply Forall_app. split.
  - by apply allValued_concat.
  - destruct e; by repeat constructor.
Qed.

Lemma if_noDeadCode r t es e :
  noDeadCode (TIf r t es e) = true →
  Forall (λ ss, noDeadCodeInBlock ss = true) (armsOf t es e).
Proof.
  rewrite noDeadCode_if, !andb_true_iff. intros [[Ht Hes] He]. unfold armsOf.
  apply Forall_cons. split; [done|]. apply Forall_app. split.
  - apply Forall_forall. intros ss Hss%list_elem_of_In.
    by eapply forallb_forall in Hes.
  - destruct e; by repeat constructor.
Qed.

(** * The walk over a statement tree *)

Lemma with_world_same d : with_world (world d) d = d.
Proof. by destruct d. Qed.

Lemma set_branches_same n b : branches b = Some n → set_branches n b = b.
Proof. destruct b. simpl. by intros ->. Qed.

Lemma bindC_Normal {A B} (a : A) (k : A → Completion B) :
  bindC (Normal a) k = k a.
Proof. done. Qed.

Lemma advances_refl top d : advances top d d [].
Proof. unfold advances. by rewrite app_nil_r. Qed.

Lemma advances_trans top d d1 d2 rs1 rs2 :
  advances top d d1 rs1 → advances top d1 d2 rs2 →
  advances top d d2 (rs1 ++ rs2).
Proof.
  intros (Hs1 & Hf1 & Hk1 & Hd1 & Hr1 & Hv1) (Hs2 & Hf2 & Hk2 & Hd2 & Hr2 & Hv2).
  repeat split.
  - congruence.
  - lia.
  - intros r Hr Hne. rewrite Hk2 by (done || lia). by apply Hk1.
  - congruence.
  - by rewrite Hr2, Hr1, app_assoc.
  - by apply Forall_app.
Qed.

Lemma filter_all_valued (rs : list ReturnInfo) :
  Forall (λ r, hasValue r = true) rs →
  filter (λ r, hasValue r = true) rs = rs.
Proof.
  induction 1 as [|r rs Hr _ IH]; [done|].
  by rewrite filter_cons_True, IH.
Qed.

Section walk.

Variable severity : BsLintRules.
Variable file : BscFile.
Variable func : FunctionExpression.
Variable isBranchedBlock : StatementInfo → bool.

Hypothesis if_is_branched :
  ∀ b, isIfStatement (stat b) = true → isBranchedBlock b = true.
Hypothesis block_is_straight :
  ∀ b, stat_kind (stat b) = Block → isBranchedBlock b = false.

Local Abbreviation step := (step severity file func isBranchedBlock).
Local Abbreviation drive := (drive severity file func isBranchedBlock).

Lemma drive_app cs1 cs2 d :
  drive (cs1 ++ cs2) d = bindC (drive cs1 d) (drive cs2).
Proof.
  revert d. induction cs1 as [|c cs1 IH]; intros d; [done|].
  simpl. destruct (step c d) as [d1|e]; simpl; [apply IH|done].
Qed.

Lemma drive_cons c cs d :
  drive (c :: cs) d = bindC (step c d) (drive cs).
Proof. done. Qed.

Lemma lintState_in_block d p outer fp :
  stack d = p :: outer →
  frames (world d) !! p = Some fp →
  deref (world d) (parent (lintState d)) = Some (p, fp)
  ∧ governingBlock (lintState d) (world d) = Some (p, fp).
Proof.
  intros Hs Hp. unfold governingBlock, lintState. rewrite Hs.
  destruct outer as [|i outer']; simpl.
  - unfold deref. simpl. by rewrite Hp.
  - destruct (frames (world d) !! i) as [b|] eqn:Hi;
      [destruct (isIfStatement (stat b))|];
      unfold deref; simpl; rewrite ?Hi, ?Hp; done.
Qed.

Lemma not_parentReturns d p outer fp :
  stack d = p :: outer →
  frames (world d) !! p = Some fp →
  returns fp = false →
  ¬ parentReturns (lintState d) (world d).
Proof.
  intros Hs Hp Hr (q & b & Hq & Hb).
  destruct (lintState_in_block d p outer fp Hs Hp) as [Hd _].
  rewrite Hd in Hq. congruence.
Qed.

Lemma step_visit_other d p outer fp s :
  stack d = p :: outer →
  frames (world d) !! p = Some fp →
  returns fp = false →
  isReturnStatement s = false →
  step (CallVisitStatement s) d = Normal d.
Proof.
  intros Hs Hp Hr Hk. simpl.
  rewrite visitStatement_reachable_other;
    [by rewrite with_world_same|by eapply not_parentReturns|done].
Qed.

Lemma step_visit_comment d p outer fp s :
  stack d = p :: outer →
  frames (world d) !! p = Some fp →
  returns fp = true →
  isCommentStatement s = true →
  step (CallVisitStatement s) d = Normal d.
Proof.
  intros Hs Hp Hr Hk. simpl.
  rewrite visitStatement_when_unreachable.
  - simpl. rewrite Hk. by rewrite with_world_same.
  - exists p, fp. split; [|done]. by eapply lintState_in_block.
Qed.

Lemma step_visit_return d p outer fp s :
  stack d = p :: outer →
  frames (world d) !! p = Some fp →
  returns fp = false →
  branches fp = Some 1%Z →
  isReturnStatement s = true →
  step (CallVisitStatement s) d
  = Normal (with_world
              (with_frames (<[p := set_returns fp]> (frames (world d)))
                 (push_return {| ret_stat := s;
                                 hasValue := carriesValue s |} (world d)))
              d).
Proof.
  intros Hs Hp Hr Hb Hk. simpl.
  destruct (lintState_in_block d p outer fp Hs Hp) as [Hd Hg].
  rewrite visitStatement_reachable_return;
    [|by eapply not_parentReturns|done].
  simpl. rewrite Hg, Hd. simpl. rewrite Hb.
  rewrite bool_decide_eq_true_2 by done.
  by rewrite (alter_as_insert _ _ _ fp).
Qed.

Lemma step_open_block d :
  step (CallOpenBlock blockStatement) d
  = Normal {| stack := fresh d :: stack d;
              fresh := S (fresh d);
              world := with_frames
                         (<[fresh d := set_branches 1 (newFrame blockStatement)]>
                            (frames (world d))) (world d) |}.
Proof. simpl. by rewrite openBlock_straight by by apply block_is_straight. Qed.

Lemma step_open_if d r t es e :
  step (CallOpenBlock (statementOf (TIf r t es e))) d
  = Normal {| stack := fresh d :: stack d;
              fresh := S (fresh d);
              world := with_frames
                         (<[fresh d :=
                              set_branches (1 + Z.of_nat (length es) + 1)
                                (newFrame (statementOf (TIf r t es e)))]>
                            (frames (world d))) (world d) |}.
Proof.
  simpl step.
  rewrite (openBlock_branched _ _ (1 + Z.of_nat (length es) + 1)).
  - done.
  - by apply if_is_branched.
  - erewrite branchesCount_if by done. by rewrite length_fmap.
Qed.

Lemma step_close d r outer closed :
  stack d = r :: outer →
  frames (world d) !! r = Some closed →
  step CallCloseBlock d
  = let popped := {| stack := outer; fresh := fresh d; world := world d |} in
    Normal (with_world
              (closeBlock severity file func (lintState popped) closed
                 (world d)) popped).
Proof. intros Hs Hr. simpl. by rewrite Hs, Hr. Qed.

(** Comments after a statement that always returns change nothing. *)
Lemma comments_run d p outer fp ss :
  stack d = p :: outer →
  frames (world d) !! p = Some fp →
  returns fp = true →
  forallb isComment ss = true →
  drive (callbacksOfStatements ss) d = Normal d.
Proof.
  intros Hs Hp Hr. induction ss as [|s ss IH]; [done|].
  simpl forallb. intros [Hc Hss]%andb_true_iff.
  destruct s as [|r| |]; try done.
  change (callbacksOfStatements (TComment r :: ss))
    with (CallVisitStatement (statementOf (TComment r))
          :: callbacksOfStatements ss).
  rewrite drive_cons, (step_visit_comment d p outer fp) by done.
  simpl. by apply IH.
Qed.

Local Abbreviation statementRuns :=
  (statementRuns severity file func isBranchedBlock).
Local Abbreviation runsInBlock :=
  (runsInBlock severity file func isBranchedBlock).
Local Abbreviation runsInIf :=
  (runsInIf severity file func isBranchedBlock).

Lemma leaf_runs t :
  isReturnStatement (statementOf t) = false →
  callbacksOf t = [CallVisitStatement (statementOf t)] →
  canFallThrough (outcomesOf t) = true →
  statementRuns t.
Proof.
  intros Hk Hcs Hfall _ _ d p outer fp Hst Hp Hb Hr Hlt.
  exists d, []. rewrite Hcs, Hfall, drive_cons.
  rewrite (step_visit_other d p outer fp) by done.
  split; [done|]. split; [apply advances_refl|]. done.
Qed.

Lemma return_runs r v : statementRuns (TReturn r v).
Proof.
  intros _ Hval d p outer fp Hst Hp Hb Hr Hlt.
  assert (carriesValue (statementOf (TReturn r v)) = true) as Hv.
  { simpl in Hval. by destruct (carriesValue _) eqn:E in Hval. }
  eexists _, [_].
  change (callbacksOf (TReturn r v))
    with [CallVisitStatement (statementOf (TReturn r v))].
  rewrite drive_cons, (step_visit_return d p outer fp) by done.
  split; [done|]. split; [|split].
  - repeat split; try done.
    + intros q Hq Hne. simpl. by rewrite lookup_insert_ne.
    + by repeat constructor.
  - simpl. by rewrite lookup_insert_eq.
  - done.
Qed.

Lemma statements_run ss :
  Forall statementRuns ss →
  liveStatements ss = true →
  forallb noDeadCode ss = true →
  allValued (outcomesOfBlock ss) = true →
  runsInBlock (callbacksOfStatements ss)
    (canFallThrough (outcomesOfBlock ss)).
Proof.
  induction 1 as [|s ss Hs Hss IH];
    intros Hlive Hdead Hval d p outer fp Hst Hp Hb Hr Hlt.
  - exists d, []. split; [done|]. split; [apply advances_refl|]. done.
  - simpl in Hlive, Hdead. apply andb_true_iff in Hdead as [Hds Hdss].
    rewrite allValued_block_cons in Hval.
    apply andb_true_iff in Hval as [Hvs Hvss].
    change (callbacksOfStatements (s :: ss))
      with (callbacksOf s ++ callbacksOfStatements ss).
    rewrite drive_app.
    destruct (Hs Hds Hvs d p outer fp Hst Hp Hb Hr Hlt)
      as (d1 & rs1 & Hrun1 & Hadv1 & Hf1 & Hne1).
    rewrite Hrun1. simpl bindC. rewrite canFallThrough_block_cons.
    destruct (canFallThrough (outcomesOf s)) eqn:Hfall.
    + simpl in Hvss.
      pose proof Hadv1 as (Hs1 & Hfr1 & _).
      destruct (IH Hlive Hdss Hvss d1 p outer fp)
        as (d2 & rs2 & Hrun2 & Hadv2 & Hf2 & Hne2);
        [congruence|done|done|done|lia|].
      exists d2, (rs1 ++ rs2). split; [done|].
      split; [by eapply advances_trans|]. split; [done|].
      simpl. intros Hx [_ ?]%app_eq_nil. by apply Hne2.
    + pose proof Hadv1 as (Hs1 & _).
      exists d1, rs1.
      rewrite (comments_run d1 p outer (set_returns fp));
        [|congruence|done|done|done].
      split; [done|]. split; [done|]. split; [done|].
      intros _. by apply Hne1.
Qed.

Lemma arm_runs ss :
  Forall statementRuns ss →
  noDeadCodeInBlock ss = true →
  allValued (outcomesOfBlock ss) = true →
  runsInIf (callbacksOfBlock ss)
    (if canFallThrough (outcomesOfBlock ss) then 0 else 1).
Proof.
  intros Hss Hdead Hval d i outer fi n Hst Hi Hif Hr Hb Hlt.
  apply andb_true_iff in Hdead as [Hlive Hdead].
  change (callbacksOfBlock ss)
    with (CallVisitStatement blockStatement
          :: CallOpenBlock blockStatement
          :: (callbacksOfStatements ss ++ [CallCloseBlock])).
  rewrite drive_cons, (step_visit_other d i outer fi) by done.
  rewrite bindC_Normal. rewrite drive_cons, step_open_block. rewrite bindC_Normal.
  set (fa := set_branches 1 (newFrame blockStatement)).
  set (d1 := {| stack := fresh d :: stack d; fresh := S (fresh d);
                world := with_frames (<[fresh d := fa]> (frames (world d)))
                           (world d) |}).
  rewrite drive_app.
  destruct (statements_run ss Hss Hlive Hdead Hval d1 (fresh d) (stack d) fa)
    as (d2 & rs & Hrun & Hadv & Hfa & Hne);
    [done|apply lookup_insert_eq|done|done|simpl; lia|].
  rewrite Hrun. rewrite bindC_Normal. rewrite drive_cons.
  destruct Hadv as (Hs2 & Hf2 & Hk2 & Hd2 & Hr2 & Hv2).
  simpl in Hs2, Hf2, Hd2, Hr2.
  assert (frames (world d2) !! i = Some fi) as Hi2.
  { rewrite Hk2; simpl; [|lia|lia]. by rewrite lookup_insert_ne by lia. }
  erewrite step_close by done. rewrite bindC_Normal. cbv zeta.
  set (popped := {| stack := stack d; fresh := fresh d2; world := world d2 |}).
  destruct (lintState_in_block popped i outer fi Hst Hi2) as [Hpar _].
  rewrite (closeBlock_straight _ _ _ _ _ _ i fi) by
    (done || by destruct (canFallThrough _)).
  rewrite Hif, andb_true_r, Hb. simpl default.
  destruct (canFallThrough (outcomesOfBlock ss)) eqn:Hfall; simpl returns.
  - eexists _, rs. split; [done|]. split; [|split].
    + repeat split; simpl; try done; [lia|].
      intros q Hq Hne'. rewrite Hk2; simpl; [|lia|lia].
      by rewrite lookup_insert_ne by lia.
    + simpl. rewrite Hi2, Z.sub_0_r. by rewrite set_branches_same.
    + lia.
  - eexists _, rs. split; [done|]. split; [|split].
    + repeat split; simpl; try done; [lia|].
      intros q Hq Hne'. rewrite lookup_insert_ne by done.
      rewrite Hk2; simpl; [|lia|lia].
      by rewrite lookup_insert_ne by lia.
    + simpl. by rewrite lookup_insert_eq.
    + intros _. by apply Hne.
Qed.

Lemma arms_run arms :
  Forall (Forall statementRuns) arms →
  Forall (λ ss, noDeadCodeInBlock ss = true) arms →
  Forall (λ ss, allValued (outcomesOfBlock ss) = true) arms →
  runsInIf (concat (map callbacksOfBlock arms)) (returningArms arms).
Proof.
  induction 1 as [|ss arms Hss Harms IH];
    intros Hdead Hval d i outer fi n Hst Hi Hif Hr Hb Hlt.
  - exists d, []. split; [done|]. split; [apply advances_refl|].
    change (returningArms []) with 0. split; [|lia].
    rewrite Hi, Z.sub_0_r. by rewrite set_branches_same.
  - apply Forall_cons in Hdead as [Hd1 Hdead].
    apply Forall_cons in Hval as [Hv1 Hval].
    rewrite map_cons, concat_cons, drive_app.
    destruct (arm_runs ss Hss Hd1 Hv1 d i outer fi n)
      as (d1 & rs1 & Hrun1 & Hadv1 & Hf1 & Hne1); [done..|].
    rewrite Hrun1. rewrite bindC_Normal.
    pose proof Hadv1 as (Hs1 & Hfr1 & _).
    set (k1 := if canFallThrough (outcomesOfBlock ss) then 0 else 1) in *.
    destruct (IH Hdead Hval d1 i outer (set_branches (n - Z.of_nat k1) fi)
                (n - Z.of_nat k1)%Z)
      as (d2 & rs2 & Hrun2 & Hadv2 & Hf2 & Hne2);
      [congruence|done|done|done|done|lia|].
    exists d2, (rs1 ++ rs2). split; [done|].
    split; [by eapply advances_trans|]. split.
    + rewrite Hf2, returningArms_cons. fold k1. f_equal.
      unfold set_branches. simpl. do 2 f_equal. lia.
    + rewrite returningArms_cons. fold k1. intros Hpos.
      intros [H1 H2]%app_eq_nil.
      destruct (decide (0 < k1)); [by apply Hne1|].
      apply Hne2; [lia|done].
Qed.

Lemma if_runs r t es e :
  Forall statementRuns t →
  Forall (Forall statementRuns) es →
  from_option (Forall statementRuns) True e →
  statementRuns (TIf r t es e).
Proof.
  intros Ht Hes He Hdead Hval d p outer fp Hst Hp Hb Hr Hlt.
  assert (Forall (Forall statementRuns) (armsOf t es e)) as Harms.
  { unfold armsOf. constructor; [done|]. apply Forall_app. split; [done|].
    destruct e; by repeat constructor. }
  rewrite callbacksOf_if.
  change ([CallVisitStatement (statementOf (TIf r t es e));
           CallOpenBlock (statementOf (TIf r t es e))]
          ++ concat (map callbacksOfBlock (armsOf t es e))
          ++ [CallCloseBlock])
    with (CallVisitStatement (statementOf (TIf r t es e))
          :: CallOpenBlock (statementOf (TIf r t es e))
          :: (concat (map callbacksOfBlock (armsOf t es e))
              ++ [CallCloseBlock])).
  rewrite drive_cons, (step_visit_other d p outer fp) by done.
  rewrite bindC_Normal. rewrite drive_cons, step_open_if. rewrite bindC_Normal.
  set (N := (1 + Z.of_nat (length es) + 1)%Z).
  set (fi := set_branches N (newFrame (statementOf (TIf r t es e)))).
  set (d1 := {| stack := fresh d :: stack d; fresh := S (fresh d);
                world := with_frames (<[fresh d := fi]> (frames (world d)))
                           (world d) |}).
  rewrite drive_app.
  destruct (arms_run _ Harms (if_noDeadCode _ _ _ _ Hdead)
              (if_allValued _ _ _ _ Hval) d1 (fresh d) (stack d) fi N)
    as (d2 & rs & Hrun & Hadv & Hfi & Hne);
    [done|apply lookup_insert_eq|done|done|done|simpl; lia|].
  rewrite Hrun. rewrite bindC_Normal. rewrite drive_cons.
  destruct Hadv as (Hs2 & Hf2 & Hk2 & Hd2 & Hr2 & Hv2).
  simpl in Hs2, Hf2, Hd2, Hr2.
  assert (frames (world d2) !! p = Some fp) as Hp2.
  { rewrite Hk2; simpl; [|lia|lia]. by rewrite lookup_insert_ne by lia. }
  erewrite step_close by done. rewrite bindC_Normal. cbv zeta.
  set (popped := {| stack := stack d; fresh := fresh d2; world := world d2 |}).
  destruct (lintState_in_block popped p outer fp Hst Hp2) as [Hpar _].
  rewrite (closeBlock_if _ _ _ _ _ _ p fp) by done.
  pose proof (if_returns_iff r t es e) as Hiff.
  simpl branches.
  destruct (canFallThrough (outcomesOf (TIf r t es e))) eqn:Hfall.
  - rewrite bool_decide_eq_false_2.
    2:{ intros [= Hz]. assert (returningArms (armsOf t es e)
                               = 1 + length es + 1) as Heq by (unfold N in Hz; lia).
        apply Hiff in Heq. done. }
    eexists _, rs. split; [done|]. split; [|split].
    + repeat split; simpl; try done; [lia|].
      intros q Hq Hne'. rewrite Hk2; simpl; [|lia|lia].
      by rewrite lookup_insert_ne by lia.
    + done.
    + done.
  - assert (returningArms (armsOf t es e) = 1 + length es + 1) as Heq
      by by apply Hiff.
    rewrite bool_decide_eq_true_2 by (f_equal; unfold N; lia).
    eexists _, rs. split; [done|]. split; [|split].
    + repeat split; simpl; try done; [lia|].
      intros q Hq Hne'. rewrite lookup_insert_ne by done.
      rewrite Hk2; simpl; [|lia|lia].
      by rewrite lookup_insert_ne by lia.
    + simpl. by rewrite lookup_insert_eq.
    + intros _. apply Hne. lia.
Qed.

Lemma every_statement_runs t : statementRuns t.
Proof.
  induction t using Tree_arms_ind.
  - apply return_runs.
  - by apply leaf_runs.
  - by apply leaf_runs.
  - by apply if_runs.
Qed.

(** With every return carrying a value, at least one return and the
    outermost block flagged, the Finalizer has nothing to report. *)
Lemma finalize_clean last w :
  ¬ declaredVoid func →
  returns last = true →
  returnInfos w ≠ [] →
  Forall (λ r, hasValue r = true) (returnInfos w) →
  finalize_emits severity file func last w = [].
Proof.
  intros Hnv Hlast Hne Hall. rewrite finalize_emits_not_void by done.
  unfold missingValue, returnedValues. rewrite filter_all_valued by done.
  rewrite Hlast, Nat.eqb_refl, andb_false_r. simpl.
  destruct (returnInfos w); [done|]. simpl. by rewrite andb_false_r.
Qed.

Lemma analyse_clean body :
  ¬ declaredVoid func →
  everyPathReturnsValue body = true →
  noDeadCodeInBlock body = true →
  ∃ w, analyse severity file func isBranchedBlock body = Normal w
       ∧ diagnostics w = [].
Proof.
  intros Hnv [Hfall Hval]%everyPathReturnsValue_split
    [Hlive Hdead]%andb_true_iff.
  unfold analyse.
  change (callbacksOfBlock body)
    with (CallVisitStatement blockStatement
          :: CallOpenBlock blockStatement
          :: (callbacksOfStatements body ++ [CallCloseBlock])).
  rewrite drive_cons.
  change (step (CallVisitStatement blockStatement) initial)
    with (Normal initial).
  rewrite bindC_Normal. rewrite drive_cons, step_open_block. rewrite bindC_Normal.
  set (fa := set_branches 1 (newFrame blockStatement)).
  set (d1 := {| stack := _; fresh := _; world := _ |}).
  rewrite drive_app.
  assert (Forall statementRuns body) as Hruns
    by (apply Forall_forall; intros; apply every_statement_runs).
  destruct (statements_run body Hruns Hlive Hdead Hval d1 0 [] fa)
    as (d2 & rs & Hrun & Hadv & Hfa & Hne);
    [done|apply lookup_insert_eq|done|done|simpl; lia|].
  rewrite Hrun, Hfall in *. rewrite bindC_Normal. rewrite drive_cons.
  destruct Hadv as (Hs2 & Hf2 & Hk2 & Hd2 & Hr2 & Hv2).
  simpl in Hs2, Hd2, Hr2.
  erewrite step_close by done. rewrite bindC_Normal. cbv zeta.
  rewrite closeBlock_outermost by done.
  eexists. split; [done|]. simpl.
  rewrite Hd2, finalize_clean; try done.
  - rewrite Hr2. by apply Hne.
  - by rewrite Hr2.
Qed.

End walk.

(** * The whole analysis of a function *)

(** C8, as the code has it.  Take a function with a return-type
    annotation other than void, every execution path of which ends in a
    return that carries a value, and no block of which has a statement
    other than a comment after a statement that always returns.  Then the
    analysis, driven through the closing of the outermost block, completes
    and leaves no diagnostic. *)
Theorem value_returning_function_is_clean
    (severity : BsLintRules) (file : BscFile) (func : FunctionExpression)
    (isBranchedBlock : StatementInfo → bool) (body : list Tree) :
  (∀ b, isIfStatement (stat b) = true → isBranchedBlock b = true) →
  (∀ b, stat_kind (stat b) = Block → isBranchedBlock b = false) →
  (∃ t, returnTypeToken func = Some t ∧ tok_kind t ≠ TokenKind_Void) →
  everyPathReturnsValue body = true →
  noDeadCodeInBlock body = true →
  ∃ w, analyse severity file func isBranchedBlock body = Normal w
       ∧ diagnostics w = [].
Proof.
  intros Hif Hblock (t & Ht & Hk) Hpaths Hdead.
  apply analyse_clean; try done.
  intros (t' & Ht' & Hk'). congruence.
Qed.

(** A statement after a [return] is reported although every execution
    path of the function ends in a return that carries a value. *)
Lemma dead_code_after_return_is_reported :
  everyPathReturnsValue returnThenPrint = true
  ∧ (∃ t, returnTypeToken functionAsInteger = Some t
          ∧ tok_kind t ≠ TokenKind_Void)
  ∧ ∃ w d,
      analyse sampleRules sampleFile functionAsInteger
        isBranchedBlock_of_tree returnThenPrint = Normal w
      ∧ diagnostics w = [d]
      ∧ diag_code d = UnreachableCode
      ∧ diag_range d = Some (rangeOf 4 4 13).
Proof.
  split; [done|]. split; [by eexists|].
  eexists _, _. split; [|split; [|split]]; vm_compute; reflexivity.
Qed.

Lemma value_returning_function_is_clean_witness :
  ∃ w, analyse sampleRules sampleFile functionAsInteger
         isBranchedBlock_of_tree exhaustiveIf = Normal w
       ∧ diagnostics w = [].
Proof.
  apply (value_returning_function_is_clean sampleRules sampleFile
           functionAsInteger isBranchedBlock_of_tree exhaustiveIf).
  - intros b Hb. exact Hb.
  - intros b Hb. unfold isBranchedBlock_of_tree, isIfStatement.
    rewrite Hb. reflexivity.
  - eexists. split; [reflexivity|]. simpl. discriminate.
  - vm_compute. reflexivity.
  - vm_compute. reflexivity.
Defined.

(** * Worked instances *)

Lemma functionAsInteger_not_void : ¬ declaredVoid functionAsInteger.
Proof. intros (t & Ht & Hk). injection Ht as <-. discriminate Hk. Defined.

Lemma returningBlock_returns : parentReturns insideBlock0 returningBlock.
Proof. eexists 0, _. split; [vm_compute; reflexivity|reflexivity]. Defined.

Lemma openBlockWorld_not_returning :
  ¬ parentReturns insideBlock0 openBlockWorld.
Proof.
  intros (p & b & Hd & Hr). vm_compute in Hd. injection Hd as _ <-.
  discriminate Hr.
Defined.

(** [function f() as integer] with an empty body: one report. *)
Lemma finalize_unsafe_return_value_witness :
  ∃ d, filter (hasCode UnsafeReturnValue)
         (finalize_emits sampleRules sampleFile functionAsInteger
            (newFrame blockStatement) openBlockWorld) = [d]
       ∧ diag_range d = Some (funRange functionAsInteger).
Proof.
  pose proof (finalize_unsafe_return_value sampleRules sampleFile
                functionAsInteger (newFrame blockStatement) openBlockWorld
                functionAsInteger_not_void) as H.
  cbv zeta in H. destruct H as (_ & H & _).
  destruct H as (d & Hd & Hrange & _).
  - split; [|left; reflexivity]. left. left. eexists. reflexivity.
  - exists d. split; assumption.
Defined.

(** An if statement with one else-if arm is opened with three branches. *)
Lemma openBlock_branch_count_witness :
  openBlock isBranchedBlock_of_tree (newFrame ifWithOneElseIf)
  = Normal {| stat := ifWithOneElseIf; branches := Some 3%Z;
              returns := false |}.
Proof.
  destruct (openBlock_branch_count isBranchedBlock_of_tree
              (newFrame ifWithOneElseIf)) as [(n & Hn & Hif & _) _].
  - intros b Hb. exact Hb.
  - unfold hasDeclaredFields. simpl. discriminate.
  - rewrite Hn. rewrite (Hif [mkElseIf (VariableExpression "b")] eq_refl).
    reflexivity.
Defined.

(** [return 1] in an open straight-line block flags that block. *)
Lemma visitStatement_return_witness :
  frames (visitStatement sampleRules sampleFile insideBlock0
            (newFrame returnOne) openBlockWorld)
  = <[0 := set_returns {| stat := blockStatement; branches := Some 1%Z;
                          returns := false |}]> (frames openBlockWorld).
Proof.
  pose proof (visitStatement_return sampleRules sampleFile insideBlock0
                (newFrame returnOne) openBlockWorld
                openBlockWorld_not_returning eq_refl) as H.
  cbv zeta in H. destruct H as (_ & _ & Hg & _).
  apply Hg.
  - vm_compute. reflexivity.
  - eexists 0, _. split; [vm_compute; reflexivity|reflexivity].
Defined.

(** Closing the outermost block of [function f() as integer] after a
    single [return 1] runs the Finalizer. *)
Lemma closeBlock_reconciles_witness :
  closeBlock sampleRules sampleFile functionAsInteger outermost
    {| stat := blockStatement; branches := Some 1%Z; returns := true |}
    returningBlock
  = finalize sampleRules sampleFile functionAsInteger
      {| stat := blockStatement; branches := Some 1%Z; returns := true |}
      returningBlock.
Proof.
  apply (proj1 (closeBlock_reconciles sampleRules sampleFile functionAsInteger
                  outermost
                  {| stat := blockStatement; branches := Some 1%Z;
                     returns := true |} returningBlock)).
  reflexivity.
Defined.

(** [print "x"] after a return gets its diagnostic. *)
Lemma visitStatement_unreachable_code_witness :
  diagnostics (visitStatement sampleRules sampleFile insideBlock0
                 (newFrame printX) returningBlock)
  = [ {| diag_severity := Information;
         diag_code := UnreachableCode;
         diag_message := "Unreachable code";
         diag_range := Some (rangeOf 4 4 13);
         diag_file := sampleFile;
         diag_tags := [Unnecessary] |} ].
Proof.
  pose proof (visitStatement_unreachable_code sampleRules sampleFile
                insideBlock0 (newFrame printX) returningBlock
                returningBlock_returns) as H.
  cbv zeta in H. destruct H as (_ & _ & H & _).
  apply (H eq_refl).
Defined.

(** [function f() as void] with a single [return 1]: one report. *)
Lemma finalize_void_unexpected_value_witness :
  length (finalize_emits sampleRules sampleFile functionAsVoid
            (newFrame blockStatement) returningBlock) = 1.
Proof.
  assert (declaredVoid functionAsVoid) as Hv
    by (eexists; split; reflexivity).
  pose proof (finalize_void_unexpected_value sampleRules sampleFile
                functionAsVoid (newFrame blockStatement) returningBlock Hv)
    as H.
  cbv zeta in H. destruct H as (_ & _ & H & _).
  rewrite H. vm_compute. reflexivity.
Defined.

(** [return 1] and a bare [return] in [function f() as integer]: the bare
    one is reported. *)
Lemma finalize_return_value_missing_witness :
  length (filter (hasCode ReturnValueMissing)
            (finalize_emits sampleRules sampleFile functionAsInteger
               {| stat := blockStatement; branches := Some 1%Z;
                  returns := true |} mixedReturns)) = 1.
Proof.
  pose proof (finalize_return_value_missing sampleRules sampleFile
                functionAsInteger
                {| stat := blockStatement; branches := Some 1%Z;
                   returns := true |} mixedReturns
                functionAsInteger_not_void) as H.
  cbv zeta in H. destruct H as (_ & H & _).
  destruct H as (_ & H & _).
  - split; [left; eexists; reflexivity|]. vm_compute. discriminate.
  - rewrite H. vm_compute. reflexivity.
Defined.

(** A second [return 1] after the block is flagged is not captured. *)
Lemma unreachable_return_is_ignored_witness :
  returnInfos (visitStatement sampleRules sampleFile insideBlock0
                 (newFrame returnOne) returningBlock)
  = returnInfos returningBlock.
Proof.
  pose proof (unreachable_return_is_ignored sampleRules sampleFile
                functionAsInteger insideBlock0 (newFrame returnOne)
                returningBlock returningBlock_returns eq_refl) as H.
  cbv zeta in H. destruct H as (H & _). exact H.
Defined.

(** * When the Finalizer stays silent *)

Lemma length_filter_all {A} (P : A → Prop) `{!∀ x, Decision (P x)}
    (l : list A) :
  length (filter P l) = length l ↔ Forall P l.
Proof.
  induction l as [|x l IH]; [done|].
  rewrite filter_cons, Forall_cons. pose proof (length_filter P l).
  destruct (decide (P x)); simpl.
  - rewrite <- IH. split; [intros [= ?]; done|]. intros [_ ->]. done.
  - split; [lia|]. by intros [? _].
Qed.

(** X1.  The Finalizer pushes nothing for a function declared void exactly when
    no captured return carries a value.  For any other function it pushes
    nothing exactly when no value is required, or else when the outermost
    block is flagged as returning, at least one return was captured and
    every captured return carries a value. *)
Theorem finalize_silent_iff
    (severity : BsLintRules) (file : BscFile) (func : FunctionExpression)
    (last : StatementInfo) (w : World) :
  (declaredVoid func →
     (finalize_emits severity file func last w = []
      ↔ ¬ someReturnHasValue w))
  ∧ (¬ declaredVoid func →
       (finalize_emits severity file func last w = []
        ↔ ¬ requiresValue func w
          ∨ (returns last = true
             ∧ returnInfos w ≠ []
             ∧ Forall (λ r, hasValue r = true) (returnInfos w)))).
Proof.
  split.
  - intros Hv. apply isVoid_true in Hv. unfold finalize_emits. rewrite Hv.
    rewrite <- hasReturnedValue_true.
    destruct (0 <? length (returnedValues w)) eqn:E.
    + split; [|done]. intros Hnil. apply length_pos_iff in E.
      by apply fmap_nil_inv in Hnil.
    + split; [done|done].
  - intros Hnv. rewrite finalize_emits_not_void by done.
    pose proof (returns_partition w) as Hpart.
    pose proof (length_filter_all (λ r, hasValue r = true) (returnInfos w))
      as Hall.
    fold (returnedValues w) in Hall.
    assert (someReturnHasValue w → requiresValue func w) as HVR
      by (intros ?; right; by left).
    assert (requiresReturnValue func w = true ↔ requiresValue func w) as Hr
      by apply requiresReturnValue_true.
    set (c := (requiresReturnValue func w || (0 <? length (returnedValues w)))
              && (negb (returns last) || (length (returnInfos w) =? 0))).
    assert (c = true
            ↔ (requiresValue func w ∨ someReturnHasValue w)
              ∧ (returns last = false ∨ length (returnInfos w) = 0)) as Hc
      by apply unsafe_condition_true.
    assert (missingValue func w = true
            ↔ requiresValue func w
              ∧ length (returnedValues w) ≠ length (returnInfos w)) as Hm
      by apply missingValue_true.
    set (m := missingValue func w) in *.
    set (q := requiresReturnValue func w) in Hr.
    clearbody c m q.
    destruct c.
    { split; [done|]. destruct (proj1 Hc eq_refl) as [HRV Hbad].
      intros [Hn|(Hl & Hne & _)].
      - destruct Hn. destruct HRV; eauto.
      - destruct Hbad as [?|Hz]; [congruence|]. by destruct (returnInfos w). }
    assert (¬ ((requiresValue func w ∨ someReturnHasValue w)
               ∧ (returns last = false ∨ length (returnInfos w) = 0)))
      as Hnc by (intros H; by apply Hc in H).
    simpl app. destruct m.
    + destruct (proj1 Hm eq_refl) as [HR Hne]. split.
      * intros Hnil%fmap_nil_inv. rewrite Hnil in Hpart. simpl in Hpart. lia.
      * intros [?|(_ & _ & Hf)]; [done|]. apply Hall in Hf. done.
    + split; [|done]. intros _. destruct q.
      * right. assert (requiresValue func w) as HR by (by apply Hr).
        split; [|split].
        -- destruct (returns last) eqn:El; [done|]. destruct Hnc. eauto.
        -- intros Hz. destruct Hnc. split; [by left|]. right. by rewrite Hz.
        -- apply Hall.
           destruct (decide (length (returnedValues w)
                             = length (returnInfos w))) as [|Hne]; [done|].
           assert (false = true) by (by apply Hm). done.
      * left. intros HR. by apply Hr in HR.
Qed.

(** X2.  With no captured return at all, the Finalizer pushes exactly one
    [UnsafeReturnValue], at the signature range, when the function has a
    return-type annotation other than void, and nothing otherwise: also
    nothing for a [function] without an annotation, and whatever the
    outermost block's flag is. *)
Theorem finalize_without_returns
    (severity : BsLintRules) (file : BscFile) (func : FunctionExpression)
    (last : StatementInfo) (w : World) :
  returnInfos w = [] →
  (is_Some (returnTypeToken func) → ¬ declaredVoid func →
     finalize_emits severity file func last w
     = [ {| diag_severity := consistentReturn severity;
            diag_code := UnsafeReturnValue;
            diag_message := "Not all code paths return a value";
            diag_range := Some (funRange func);
            diag_file := file;
            diag_tags := [] |} ])
  ∧ (returnTypeToken func = None ∨ declaredVoid func →
       finalize_emits severity file func last w = []).
Proof.
  intros Hz. unfold finalize_emits, missingValue, requiresReturnValue,
    returnedValues. rewrite Hz. simpl.
  rewrite !andb_false_r, !orb_false_r, !orb_true_r, !andb_true_r.
  split.
  - intros Hsome Hnv. apply isVoid_false in Hnv. rewrite Hnv.
    by rewrite bool_decide_eq_true_2.
  - intros [Hnone|Hv].
    + unfold isVoid. rewrite Hnone. rewrite bool_decide_eq_false_2; [done|].
      by intros [? [=]].
    + apply isVoid_true in Hv. by rewrite Hv.
Qed.

(** * What the callbacks push and what they leave alone *)

Lemma finalize_emits_attributed severity file func last w :
  Forall (λ d, ReturnLintError_code (diag_code d) ∈ [2012; 2014; 2016]%Z
               ∧ diag_severity d = consistentReturn severity
               ∧ diag_file d = file
               ∧ diag_tags d = [])
    (finalize_emits severity file func last w).
Proof.
  unfold finalize_emits. destruct (isVoid func).
  - destruct (0 <? _); [|done]. apply Forall_fmap, Forall_forall.
    intros r _. simpl. split; [set_solver|done].
  - apply Forall_app. split.
    + destruct (_ && _); [|done]. apply Forall_singleton. simpl.
      split; [set_solver|done].
    + destruct (missingValue func w); [|done]. apply Forall_fmap, Forall_forall.
      intros r _. simpl. split; [set_solver|done].
Qed.

(** X4.  The diagnostics array only grows, and what is pushed is attributed to
    the configuration: [visitStatement] pushes at most one diagnostic, with
    code 2011, the [unreachableCode] severity and the [Unnecessary] tag;
    [closeBlock] pushes only diagnostics with code 2012, 2014 or 2016, the
    [consistentReturn] severity and no tag.  All carry the linter's file.
    The codes 2013, 2015 and 2017 of the enumeration are never pushed. *)
Theorem pushed_diagnostics_are_attributed
    (severity : BsLintRules) (file : BscFile) (func : FunctionExpression)
    (state : LintState) (w : World) :
  (∀ curr, ∃ ds,
     diagnostics (visitStatement severity file state curr w)
     = diagnostics w ++ ds
     ∧ length ds ≤ 1
     ∧ Forall (λ d, ReturnLintError_code (diag_code d) = 2011%Z
                    ∧ diag_severity d = unreachableCode severity
                    ∧ diag_file d = file
                    ∧ diag_tags d = [Unnecessary]) ds)
  ∧ (∀ closed, ∃ ds,
       diagnostics (closeBlock severity file func state closed w)
       = diagnostics w ++ ds
       ∧ Forall (λ d, ReturnLintError_code (diag_code d)
                        ∈ [2012; 2014; 2016]%Z
                      ∧ diag_severity d = consistentReturn severity
                      ∧ diag_file d = file
                      ∧ diag_tags d = []) ds).
Proof.
  split.
  - intros curr.
    destruct (from_option (λ p, returns p.2) false (deref w (parent state)))
      eqn:Hp; [apply parentReturns_true in Hp|apply parentReturns_false in Hp].
    + rewrite visitStatement_when_unreachable by done.
      destruct (isCommentStatement (stat curr)).
      * exists []. rewrite app_nil_r. repeat split; [simpl; lia|done].
      * exists [unreachable severity file curr].
        repeat split; [done|]. by repeat constructor.
    + exists []. rewrite app_nil_r. split; [|split; [simpl; lia|done]].
      destruct (isReturnStatement (stat curr)) eqn:Hr.
      * rewrite visitStatement_reachable_return by done. simpl.
        destruct (governingBlock state w) as [[? ?]|]; [|done].
        by destruct (bool_decide _).
      * by rewrite visitStatement_reachable_other.
  - intros closed. unfold closeBlock.
    destruct (deref w (parent state)) as [[p pf]|].
    + exists []. rewrite app_nil_r. split; [|done].
      destruct (isIfStatement (stat closed)).
      * by destruct (bool_decide _).
      * destruct (returns closed); [|done].
        by destruct (isIfStatement (stat pf)).
    + exists (finalize_emits severity file func closed w).
      split; [done|]. apply finalize_emits_attributed.
Qed.

(** X5.  [visitStatement] creates and deletes no frame, changes no frame's
    statement or branch count, never clears a [returns] flag, and changes
    at most the governing block, by flagging it. *)
Theorem visitStatement_keeps_frames
    (severity : BsLintRules) (file : BscFile) (state : LintState)
    (curr : StatementInfo) (w : World) (r : ref) :
  let w' := visitStatement severity file state curr w in
  (frames w !! r = None → frames w' !! r = None)
  ∧ (∀ b, frames w !! r = Some b →
       ∃ b', frames w' !! r = Some b'
             ∧ stat b' = stat b
             ∧ branches b' = branches b
             ∧ (returns b = true → returns b' = true)
             ∧ (b' = b
                ∨ (governingBlock state w = Some (r, b)
                   ∧ isReturnStatement (stat curr) = true
                   ∧ b' = set_returns b))).
Proof.
  intros w'.
  assert (frames w' = frames w
          ∨ ∃ rb gb, governingBlock state w = Some (rb, gb)
                     ∧ isReturnStatement (stat curr) = true
                     ∧ frames w' = alter set_returns rb (frames w)) as Hcases.
  { unfold w'.
    destruct (from_option (λ p, returns p.2) false (deref w (parent state)))
      eqn:Hp; [apply parentReturns_true in Hp|apply parentReturns_false in Hp].
    - left. rewrite visitStatement_when_unreachable by done.
      by destruct (isCommentStatement _).
    - destruct (isReturnStatement (stat curr)) eqn:Hr.
      + rewrite visitStatement_reachable_return by done. simpl.
        destruct (governingBlock state w) as [[rb gb]|]; [|by left].
        destruct (bool_decide _); [|by left]. right. by exists rb, gb.
      + left. by rewrite visitStatement_reachable_other. }
  destruct Hcases as [->|(rb & gb & Hg & Hret & ->)].
  - split; [done|]. intros b Hb. exists b. by repeat split; [..|left].
  - assert (frames w !! rb = Some gb) as Hrb.
    { unfold governingBlock in Hg.
      destruct (deref w (ifs state)); by apply deref_Some in Hg as [_ ?]. }
    rewrite lookup_alter. case_decide as Heq.
    + subst rb. rewrite Hrb. split; [done|]. intros b [= <-].
      exists (set_returns gb). split; [done|]. split; [done|].
      split; [done|]. split; [done|]. by right.
    + split; [done|]. intros b Hb. exists b. by repeat split; [..|left].
Qed.

(** X6.  [closeBlock] creates and deletes no frame, changes no frame's
    statement, never clears a [returns] flag and never touches the
    captured returns.  It changes at most the enclosing frame: by flagging
    it, or, when it is an if statement, by lowering its branch count by
    one. *)
Theorem closeBlock_keeps_frames
    (severity : BsLintRules) (file : BscFile) (func : FunctionExpression)
    (state : LintState) (closed : StatementInfo) (w : World) (r : ref) :
  let w' := closeBlock severity file func state closed w in
  returnInfos w' = returnInfos w
  ∧ (frames w !! r = None → frames w' !! r = None)
  ∧ (∀ b, frames w !! r = Some b →
       ∃ b', frames w' !! r = Some b'
             ∧ stat b' = stat b
             ∧ (returns b = true → returns b' = true)
             ∧ (b' = b
                ∨ (deref w (parent state) = Some (r, b)
                   ∧ (b' = set_returns b
                      ∨ (isIfStatement (stat b) = true
                         ∧ b' = set_branches
                                  (default 2 (branches b) - 1)%Z b))))).
Proof.
  intros w'. unfold w', closeBlock.
  destruct (deref w (parent state)) as [[p pf]|] eqn:Hp.
  2:{ split; [done|]. split; [done|]. intros b Hb. exists b.
      by repeat split; [..|left]. }
  pose proof (proj1 (deref_Some _ _ _ _) Hp) as [_ Hpf].
  assert (∀ f : StatementInfo → StatementInfo,
            (∀ b, stat (f b) = stat b) →
            (∀ b, returns b = true → returns (f b) = true) →
            (f pf = set_returns pf
             ∨ (isIfStatement (stat pf) = true
                ∧ f pf = set_branches (default 2 (branches pf) - 1)%Z pf)) →
            (frames w !! r = None → alter f p (frames w) !! r = None)
            ∧ (∀ b, frames w !! r = Some b →
                 ∃ b', alter f p (frames w) !! r = Some b'
                       ∧ stat b' = stat b
                       ∧ (returns b = true → returns b' = true)
                       ∧ (b' = b
                          ∨ (Some (p, pf) = Some (r, b)
                             ∧ (b' = set_returns b
                                ∨ (isIfStatement (stat b) = true
                                   ∧ b' = set_branches
                                            (default 2 (branches b) - 1)%Z
                                            b)))))) as Halter.
  { intros f Hstat Hret Hf. rewrite lookup_alter. case_decide as Heq.
    - subst p. rewrite Hpf. split; [done|]. intros b [= <-].
      exists (f pf). split; [done|]. split; [done|].
      split; [by apply Hret|]. right. split; [done|]. done.
    - split; [done|]. intros b Hb. exists b. by repeat split; [..|left]. }
  assert ((frames w !! r = None → frames w !! r = None)
          ∧ (∀ b, frames w !! r = Some b →
               ∃ b', frames w !! r = Some b'
                     ∧ stat b' = stat b
                     ∧ (returns b = true → returns b' = true)
                     ∧ (b' = b
                        ∨ (Some (p, pf) = Some (r, b)
                           ∧ (b' = set_returns b
                              ∨ (isIfStatement (stat b) = true
                                 ∧ b' = set_branches
                                          (default 2 (branches b) - 1)%Z
                                          b)))))) as Hsame.
  { split; [done|]. intros b Hb. exists b. by repeat split; [..|left]. }
  destruct (isIfStatement (stat closed)).
  - case_bool_decide; (split; [done|]); [|done].
    apply Halter; [done|done|by left].
  - destruct (returns closed); [|by split].
    destruct (isIfStatement (stat pf)) eqn:Hif; (split; [done|]); [|done].
    apply Halter; [done|done|]. right. done.
Qed.

(** * The captured returns *)

Lemma faithfulRecord_without_value r :
  faithfulRecord r → hasValue r = false →
  stat_kind (ret_stat r) = ReturnStatement None
  ∨ stat_kind (ret_stat r) = ReturnStatement (Some CommentOperand).
Proof.
  intros [Hk Hv] Hf. rewrite Hf in Hv.
  unfold isReturnStatement, carriesValue, stat_value in *.
  destruct (stat_kind (ret_stat r)) as [?|[e|]| | |?]; try done; [|by left].
  destruct e; try done. by right.
Qed.

Lemma faithfulRecord_with_value r :
  faithfulRecord r → hasValue r = true →
  ∃ e, stat_kind (ret_stat r) = ReturnStatement (Some e) ∧ e ≠ CommentOperand.
Proof.
  intros [Hk Hv] Hf. rewrite Hf in Hv.
  unfold isReturnStatement, carriesValue, stat_value in *.
  destruct (stat_kind (ret_stat r)) as [?|[e|]| | |?]; try done.
  exists e. split; [done|]. by intros ->.
Qed.

(** X7.  Every record that [visitStatement] captures is about a return
    statement and says whether that statement has an operand other than a
    comment; [closeBlock] keeps the records as they are.  So the property
    holds of all captured returns throughout an analysis that starts with
    none. *)
Theorem captured_records_stay_faithful
    (severity : BsLintRules) (file : BscFile) (func : FunctionExpression)
    (state : LintState) (curr closed : StatementInfo) (w : World) :
  Forall faithfulRecord (returnInfos w) →
  Forall faithfulRecord
    (returnInfos (visitStatement severity file state curr w))
  ∧ Forall faithfulRecord
      (returnInfos (closeBlock severity file func state closed w)).
Proof.
  intros Hinv. split.
  - destruct (from_option (λ p, returns p.2) false (deref w (parent state)))
      eqn:Hp; [apply parentReturns_true in Hp|apply parentReturns_false in Hp].
    + rewrite visitStatement_when_unreachable by done.
      by destruct (isCommentStatement _).
    + destruct (isReturnStatement (stat curr)) eqn:Hr.
      * rewrite visitStatement_reachable_return by done.
        assert (Forall faithfulRecord
                  (returnInfos w
                   ++ [{| ret_stat := stat curr;
                          hasValue := carriesValue (stat curr) |}])) as Hnew.
        { apply Forall_app. split; [done|]. by apply Forall_singleton. }
        simpl. destruct (governingBlock state w) as [[? ?]|]; [|done].
        by destruct (bool_decide _).
      * by rewrite visitStatement_reachable_other.
  - unfold closeBlock. destruct (deref w (parent state)) as [[p pf]|]; [|done].
    destruct (isIfStatement (stat closed)).
    + by destruct (bool_decide _).
    + destruct (returns closed); [|done].
      by destruct (isIfStatement (stat pf)).
Qed.

(** X8.  When the captured records are faithful, each diagnostic of the
    Finalizer is about the right kind of return: a [ReturnValueMissing] is
    located at a captured return that has no operand or only a comment as
    operand, a [ReturnValueUnexpected] at a captured return that has an
    operand other than a comment. *)
Theorem finalizer_diagnostics_blame_the_right_returns
    (severity : BsLintRules) (file : BscFile) (func : FunctionExpression)
    (last : StatementInfo) (w : World) (d : BsDiagnostic) :
  Forall faithfulRecord (returnInfos w) →
  d ∈ finalize_emits severity file func last w →
  (diag_code d = ReturnValueMissing →
     ∃ r, r ∈ returnInfos w
          ∧ (stat_kind (ret_stat r) = ReturnStatement None
             ∨ stat_kind (ret_stat r) = ReturnStatement (Some CommentOperand))
          ∧ diag_range d
            = Some (default (funRange func) (stat_range (ret_stat r))))
  ∧ (diag_code d = ReturnValueUnexpected →
       ∃ r e, r ∈ returnInfos w
              ∧ stat_kind (ret_stat r) = ReturnStatement (Some e)
              ∧ e ≠ CommentOperand
              ∧ diag_range d
                = Some (default (funRange func) (stat_range (ret_stat r)))).
Proof.
  intros Hinv Hd. rewrite Forall_forall in Hinv.
  unfold finalize_emits in Hd. destruct (isVoid func).
  - destruct (0 <? _); [|by apply not_elem_of_nil in Hd].
    apply list_elem_of_fmap in Hd as (r & -> & Hr).
    apply list_elem_of_filter in Hr as [Hv Hr].
    split; [done|]. intros _.
    destruct (faithfulRecord_with_value r (Hinv r Hr) Hv) as (e & He & Hne).
    by exists r, e.
  - apply elem_of_app in Hd as [Hd|Hd].
    + destruct (_ && _); [|by apply not_elem_of_nil in Hd].
      apply list_elem_of_singleton in Hd as ->. done.
    + destruct (missingValue func w); [|by apply not_elem_of_nil in Hd].
      apply list_elem_of_fmap in Hd as (r & -> & Hr).
      apply list_elem_of_filter in Hr as [Hv Hr].
      split; [|done]. intros _. exists r. split; [done|].
      split; [|done]. by apply faithfulRecord_without_value; [apply Hinv|].
Qed.

(** * Statements in a row *)

Lemma visitStatements_app severity file state cs1 cs2 w :
  visitStatements severity file state (cs1 ++ cs2) w
  = visitStatements severity file state cs2
      (visitStatements severity file state cs1 w).
Proof. apply foldl_app. Qed.

Lemma visitStatements_no_return severity file state cs w :
  ¬ parentReturns state w →
  Forall (λ s, isReturnStatement (stat s) = false) cs →
  visitStatements severity file state cs w = w.
Proof.
  intros Hp. induction 1 as [|c cs Hc _ IH]; [done|].
  unfold visitStatements in *. simpl.
  by rewrite visitStatement_reachable_other.
Qed.

(** X9.  In a straight-line block that is not yet flagged and is its own
    governing block, a run of statements is handled as follows: the first
    return is captured and flags the block; nothing before it changes
    anything; of the statements after it none is captured, and each one
    that is not a comment is reported as unreachable, in order. *)
Theorem statements_around_first_return
    (severity : BsLintRules) (file : BscFile) (state : LintState) (w : World)
    (p : ref) (fp : StatementInfo)
    (before : list StatementInfo) (first : StatementInfo)
    (after : list StatementInfo) :
  deref w (parent state) = Some (p, fp) →
  governingBlock state w = Some (p, fp) →
  returns fp = false →
  branches fp = Some 1%Z →
  Forall (λ s, isReturnStatement (stat s) = false) before →
  isReturnStatement (stat first) = true →
  let w' := visitStatements severity file state (before ++ first :: after) w in
  returnInfos w'
  = returnInfos w ++ [ {| ret_stat := stat first;
                          hasValue := carriesValue (stat first) |} ]
  ∧ frames w' = <[p := set_returns fp]> (frames w)
  ∧ diagnostics w'
    = diagnostics w
      ++ ((λ s, {| diag_severity := unreachableCode severity;
                   diag_code := UnreachableCode;
                   diag_message := "Unreachable code";
                   diag_range := stat_range (stat s);
                   diag_file := file;
                   diag_tags := [Unnecessary] |})
          <$> filter (λ s, isCommentStatement (stat s) = false) after).
Proof.
  intros Hpar Hgov Hr Hb Hbefore Hfirst w'.
  assert (¬ parentReturns state w) as Hnot.
  { intros (q & b & Hq & Hqb). rewrite Hpar in Hq. congruence. }
  unfold w'. rewrite visitStatements_app.
  rewrite (visitStatements_no_return _ _ _ before w) by done.
  change (visitStatements severity file state (first :: after) w)
    with (visitStatements severity file state after
            (visitStatement severity file state first w)).
  rewrite visitStatement_reachable_return by done.
  simpl. rewrite Hgov, Hpar. simpl. rewrite Hb.
  rewrite bool_decide_eq_true_2 by done.
  pose proof (proj1 (deref_Some _ _ _ _) Hpar) as [Hps Hpf].
  rewrite (alter_as_insert _ _ _ fp) by done.
  rewrite visitStatements_when_unreachable.
  - done.
  - exists p, (set_returns fp). split; [|done].
    apply deref_Some. split; [done|]. simpl. by rewrite lookup_insert_eq.
Qed.

(** X10.  With no enclosing frame, [visitStatement] pushes no diagnostic and
    changes no frame, whatever [ifs] and [branch] are; a return is still
    captured. *)
Theorem visitStatement_without_parent
    (severity : BsLintRules) (file : BscFile) (state : LintState)
    (curr : StatementInfo) (w : World) :
  deref w (parent state) = None →
  let w' := visitStatement severity file state curr w in
  frames w' = frames w
  ∧ diagnostics w' = diagnostics w
  ∧ returnInfos w'
    = returnInfos w
      ++ (if isReturnStatement (stat curr)
          then [ {| ret_stat := stat curr;
                    hasValue := carriesValue (stat curr) |} ]
          else []).
Proof.
  intros Hpar w'.
  assert (¬ parentReturns state w) as Hnot.
  { intros (q & b & Hq & _). rewrite Hpar in Hq. done. }
  unfold w'. destruct (isReturnStatement (stat curr)) eqn:Hr.
  - rewrite visitStatement_reachable_return by done. simpl.
    rewrite Hpar. simpl.
    destruct (governingBlock state w) as [[? ?]|]; done.
  - rewrite visitStatement_reachable_other by done. by rewrite app_nil_r.
Qed.

(** * Counting the arms of an if statement *)

Lemma returningCount_cons c cs :
  returningCount (c :: cs)
  = (if returns c then 1 else 0) + returningCount cs.
Proof.
  unfold returningCount. rewrite filter_cons. destruct (returns c).
  - by rewrite decide_True.
  - by rewrite decide_False.
Qed.

Lemma returningCount_le cs : returningCount cs ≤ length cs.
Proof. apply length_filter. Qed.

Lemma set_branches_set_branches n m b :
  set_branches n (set_branches m b) = set_branches n b.
Proof. done. Qed.

(** X12.  Closing a run of child blocks, none of them an if statement, under
    the frame of an if statement lowers that frame's branch count by the
    number of children flagged as returning, with no lower bound, and
    changes nothing else: no other frame, no captured return, no
    diagnostic. *)
Theorem closeBlocks_lowers_branch_count
    (severity : BsLintRules) (file : BscFile) (func : FunctionExpression)
    (state : LintState) (children : list StatementInfo) (w : World)
    (i : ref) (fi : StatementInfo) (n : Z) :
  deref w (parent state) = Some (i, fi) →
  isIfStatement (stat fi) = true →
  branches fi = Some n →
  Forall (λ c, isIfStatement (stat c) = false) children →
  let w' := closeBlocks severity file func state children w in
  frames w'
  = <[i := {| stat := stat fi;
              branches := Some (n - Z.of_nat (returningCount children))%Z;
              returns := returns fi |}]> (frames w)
  ∧ returnInfos w' = returnInfos w
  ∧ diagnostics w' = diagnostics w.
Proof.
  intros Hpar Hif Hb Hchildren. revert w fi n Hpar Hif Hb.
  induction Hchildren as [|c cs Hc _ IH]; intros w fi n Hpar Hif Hb w'.
  - unfold w'. simpl. split; [|done].
    pose proof (proj1 (deref_Some _ _ _ _) Hpar) as [_ Hfi].
    change (returningCount []) with 0. rewrite Z.sub_0_r.
    rewrite insert_id; [done|]. rewrite Hfi. f_equal.
    destruct fi. simpl in *. by rewrite Hb.
  - unfold w', closeBlocks. simpl foldl.
    fold (closeBlocks severity file func state cs
            (closeBlock severity file func state c w)).
    rewrite (closeBlock_straight _ _ _ _ _ _ i fi) by done.
    rewrite Hif, andb_true_r, returningCount_cons.
    pose proof (proj1 (deref_Some _ _ _ _) Hpar) as [Hps Hfi].
    destruct (returns c).
    + rewrite Hb. simpl default.
      set (fi1 := set_branches (n - 1) fi).
      set (w1 := with_frames (<[i := fi1]> (frames w)) w).
      destruct (IH w1 fi1 (n - 1)%Z) as (Hf & Hr & Hd); [|done|done|].
      { apply deref_Some. split; [done|]. simpl. by rewrite lookup_insert_eq. }
      split; [|done]. rewrite Hf. simpl. rewrite insert_insert_eq.
      do 3 f_equal. lia.
    + destruct (IH w fi n) as (Hf & Hr & Hd); try done.
Qed.

(** X13.  An if statement opened by [openBlock] makes its own closing flag the
    enclosing block exactly when the number of returning child blocks
    closed under it equals its branch count, one plus the number of
    else-if arms plus one.  With no more children than written arms of an
    if statement without else (one plus the number of else-if arms), the
    enclosing block is never flagged. *)
Theorem if_flags_parent_iff_every_branch_returned
    (severity : BsLintRules) (file : BscFile) (func : FunctionExpression)
    (isBranchedBlock : StatementInfo → bool)
    (block opened : StatementInfo) (elseIfs : list ElseIf)
    (inside outside : LintState) (children : list StatementInfo)
    (w : World) (i p : ref) (fp : StatementInfo) :
  stat_kind (stat block) = IfStatement (Some elseIfs) →
  isBranchedBlock block = true →
  openBlock isBranchedBlock block = Normal opened →
  deref w (parent inside) = Some (i, opened) →
  parent outside = Some p →
  frames w !! p = Some fp →
  p ≠ i →
  Forall (λ c, isIfStatement (stat c) = false) children →
  let w1 := closeBlocks severity file func inside children w in
  ∃ closed,
    frames w1 !! i = Some closed
    ∧ let w2 := closeBlock severity file func outside closed w1 in
      (returningCount children = 1 + length elseIfs + 1 →
         frames w2 !! p = Some (set_returns fp))
      ∧ (returningCount children ≠ 1 + length elseIfs + 1 →
           frames w2 !! p = Some fp)
      ∧ (length children ≤ 1 + length elseIfs →
           frames w2 !! p = Some fp).
Proof.
  intros Hk Hbr Hopen Hin Hout Hp Hne Hchildren w1.
  rewrite (openBlock_branched _ _ (1 + Z.of_nat (length elseIfs) + 1)) in Hopen
    by (done || by apply branchesCount_if).
  injection Hopen as <-.
  assert (isIfStatement (stat block) = true) as Hif
    by (unfold isIfStatement; by rewrite Hk).
  destruct (closeBlocks_lowers_branch_count severity file func inside children
              w i (set_branches (1 + Z.of_nat (length elseIfs) + 1) block)
              (1 + Z.of_nat (length elseIfs) + 1)) as (Hf & Hr & Hd);
    [done..|].
  fold w1 in Hf. simpl in Hf.
  eexists. split; [by rewrite Hf, lookup_insert_eq|].
  assert (deref w1 (parent outside) = Some (p, fp)) as Hpar.
  { apply deref_Some. split; [done|]. by rewrite Hf, lookup_insert_ne. }
  cbv zeta. rewrite (closeBlock_if _ _ _ _ _ _ p fp) by done.
  simpl branches.
  assert (returningCount children ≠ 1 + length elseIfs + 1 →
          frames (if bool_decide
                       (Some (1 + Z.of_nat (length elseIfs) + 1
                              - Z.of_nat (returningCount children))%Z
                        = Some 0%Z)
                  then with_frames (<[p := set_returns fp]> (frames w1)) w1
                  else w1) !! p = Some fp) as Hnot.
  { intros Hcount. rewrite bool_decide_eq_false_2 by (intros [= ?]; lia).
    by rewrite Hf, lookup_insert_ne. }
  split; [|split; [done|]].
  - intros Hcount. rewrite bool_decide_eq_true_2 by (f_equal; lia).
    simpl. by rewrite lookup_insert_eq.
  - intros Hlen. apply Hnot. pose proof (returningCount_le children). lia.
Qed.

(** * A body that can fall through *)

(** X14.  The counterpart of the clean analysis, for the driver modelled from
    the design: take a function with a return-type annotation other than
    void, without dead code, whose returns all carry a value, and in which
    some execution path reaches the end of the body without a return.  The
    analysis completes and leaves exactly one diagnostic, the
    [UnsafeReturnValue] at the signature range.  An if statement without
    an else arm is such a body even when each written arm returns. *)
Theorem fall_through_is_reported_once
    (severity : BsLintRules) (file : BscFile) (func : FunctionExpression)
    (isBranchedBlock : StatementInfo → bool) (body : list Tree) :
  (∀ b, isIfStatement (stat b) = true → isBranchedBlock b = true) →
  (∀ b, stat_kind (stat b) = Block → isBranchedBlock b = false) →
  (∃ t, returnTypeToken func = Some t ∧ tok_kind t ≠ TokenKind_Void) →
  canFallThrough (outcomesOfBlock body) = true →
  allValued (outcomesOfBlock body) = true →
  noDeadCodeInBlock body = true →
  ∃ w, analyse severity file func isBranchedBlock body = Normal w
       ∧ diagnostics w
         = [ {| diag_severity := consistentReturn severity;
                diag_code := UnsafeReturnValue;
                diag_message := "Not all code paths return a value";
                diag_range := Some (funRange func);
                diag_file := file;
                diag_tags := [] |} ].
Proof.
  intros Hif Hblock (t & Ht & Hk) Hfall Hval [Hlive Hdead]%andb_true_iff.
  assert (¬ declaredVoid func) as Hnv
    by (intros (t' & Ht' & Hk'); congruence).
  unfold analyse.
  change (callbacksOfBlock body)
    with (CallVisitStatement blockStatement
          :: CallOpenBlock blockStatement
          :: (callbacksOfStatements body ++ [CallCloseBlock])).
  rewrite drive_cons.
  change (step severity file func isBranchedBlock
            (CallVisitStatement blockStatement) initial)
    with (Normal initial).
  rewrite bindC_Normal, drive_cons, step_open_block by done.
  rewrite bindC_Normal.
  set (fa := set_branches 1 (newFrame blockStatement)).
  set (d1 := {| stack := _; fresh := _; world := _ |}).
  rewrite drive_app.
  assert (Forall (statementRuns severity file func isBranchedBlock) body)
    as Hruns
    by (apply Forall_forall; intros; by apply every_statement_runs).
  destruct (statements_run severity file func isBranchedBlock body Hruns
              Hlive Hdead Hval d1 0 [] fa)
    as (d2 & rs & Hrun & Hadv & Hfa & _);
    [done|apply lookup_insert_eq|done|done|simpl; lia|].
  rewrite Hrun, Hfall in *. rewrite bindC_Normal, drive_cons.
  destruct Hadv as (Hs2 & Hf2 & Hk2 & Hd2 & Hr2 & Hv2).
  simpl in Hs2, Hd2, Hr2.
  erewrite step_close by done. rewrite bindC_Normal. cbv zeta.
  rewrite closeBlock_outermost by done.
  eexists. split; [done|]. simpl. rewrite Hd2. simpl.
  rewrite finalize_emits_not_void by done.
  unfold missingValue, requiresReturnValue, returnedValues.
  rewrite Hr2. simpl. rewrite filter_all_valued by done.
  rewrite Nat.eqb_refl, andb_false_r.
  rewrite bool_decide_eq_true_2 by (by rewrite Ht). done.
Qed.

(** * A branch frame that is not the enclosing frame *)

(** X11.  When the lint state is inside an if statement and its branch frame is
    another frame than the enclosing one, a return in a one-branch
    enclosing block flags the branch frame and leaves the enclosing frame
    unflagged: the statement visited next under the same lint state gets
    no diagnostic. *)
Theorem return_flags_branch_not_parent
    (severity : BsLintRules) (file : BscFile) (state : LintState) (w : World)
    (p g : ref) (fp fg : StatementInfo) (first next : StatementInfo) :
  deref w (parent state) = Some (p, fp) →
  returns fp = false →
  branches fp = Some 1%Z →
  is_Some (deref w (ifs state)) →
  deref w (branch state) = Some (g, fg) →
  g ≠ p →
  isReturnStatement (stat first) = true →
  let w1 := visitStatement severity file state first w in
  frames w1 = <[g := set_returns fg]> (frames w)
  ∧ frames w1 !! p = Some fp
  ∧ diagnostics (visitStatement severity file state next w1) = diagnostics w.
Proof.
  intros Hpar Hr Hb [x Hifs] Hbranch Hne Hfirst w1.
  assert (¬ parentReturns state w) as Hnot.
  { intros (q & b & Hq & Hqb). rewrite Hpar in Hq. congruence. }
  assert (w1 = with_frames (<[g := set_returns fg]> (frames w))
                 (push_return {| ret_stat := stat first;
                                 hasValue := carriesValue (stat first) |} w))
    as Hw1.
  { unfold w1. rewrite visitStatement_reachable_return by done.
    unfold governingBlock. rewrite Hifs, Hbranch, Hpar. simpl. rewrite Hb.
    rewrite bool_decide_eq_true_2 by done.
    rewrite (alter_as_insert _ _ _ fg); [done|].
    by apply deref_Some in Hbranch as [_ ?]. }
  pose proof (proj1 (deref_Some _ _ _ _) Hpar) as [Hps Hpf].
  assert (frames w1 !! p = Some fp) as Hp1
    by (rewrite Hw1; simpl; by rewrite lookup_insert_ne).
  split; [by rewrite Hw1|]. split; [done|].
  assert (¬ parentReturns state w1) as Hnot1.
  { intros (q & b & Hq & Hqb). apply deref_Some in Hq as [Hq1 Hq2].
    rewrite Hps in Hq1. injection Hq1 as <-. congruence. }
  assert (diagnostics w1 = diagnostics w) as <- by (by rewrite Hw1).
  destruct (isReturnStatement (stat next)) eqn:Hn.
  - rewrite visitStatement_reachable_return by done. simpl.
    destruct (governingBlock state w1) as [[? ?]|]; [|done].
    by destruct (bool_decide _).
  - by rewrite visitStatement_reachable_other.
Qed.

(** * Bare returns: function against sub *)

Lemma filter_none_valued (rs : list ReturnInfo) :
  Forall (λ r, hasValue r = false) rs →
  filter (λ r, hasValue r = true) rs = []
  ∧ filter (λ r, hasValue r = false) rs = rs.
Proof.
  induction 1 as [|r rs Hr _ [IH1 IH2]]; [done|].
  rewrite filter_cons_False by congruence.
  rewrite filter_cons_True by done. by rewrite IH2.
Qed.

(** X3.  Without a return-type annotation and with only returns that carry no
    value, the function-kind token decides: under [function] every
    captured return gets a [ReturnValueMissing], after an
    [UnsafeReturnValue] when the outermost block is not flagged; under any
    other token, such as [sub], nothing is pushed. *)
Theorem function_kind_decides_bare_returns
    (severity : BsLintRules) (file : BscFile) (func : FunctionExpression)
    (last : StatementInfo) (w : World) :
  returnTypeToken func = None →
  returnInfos w ≠ [] →
  Forall (λ r, hasValue r = false) (returnInfos w) →
  ((∃ t, functionType func = Some t ∧ tok_kind t = TokenKind_Function) →
     finalize_emits severity file func last w
     = (if returns last then []
        else [ {| diag_severity := consistentReturn severity;
                  diag_code := UnsafeReturnValue;
                  diag_message := "Not all code paths return a value";
                  diag_range := Some (funRange func);
                  diag_file := file;
                  diag_tags := [] |} ])
       ++ ((λ r, {| diag_severity := consistentReturn severity;
                    diag_code := ReturnValueMissing;
                    diag_message :=
                      "This function should consistently return a value";
                    diag_range :=
                      Some (match stat_range (ret_stat r) with
                            | Some rg => rg
                            | None => funRange func
                            end);
                    diag_file := file;
                    diag_tags := [] |}) <$> returnInfos w))
  ∧ (¬ (∃ t, functionType func = Some t ∧ tok_kind t = TokenKind_Function) →
       finalize_emits severity file func last w = []).
Proof.
  intros Hnone Hne Hbare.
  destruct (filter_none_valued _ Hbare) as [Hwith Hwithout].
  assert (isVoid func = false) as Hv by (unfold isVoid; by rewrite Hnone).
  unfold finalize_emits, missingValue, requiresReturnValue, returnedValues.
  rewrite Hv, Hwith, Hwithout, Hnone.
  rewrite bool_decide_eq_false_2 by (by intros [? [=]]).
  destruct (returnInfos w) as [|r rs] eqn:Hrs; [done|].
  simpl length. simpl Nat.ltb. simpl Nat.eqb.
  rewrite !orb_false_r, !andb_true_r. simpl orb.
  split.
  - intros Hf. apply isFunctionKind_true in Hf. rewrite Hf. simpl.
    by destruct (returns last).
  - intros Hf. destruct (isFunctionKind func) eqn:E; [|done].
    by apply isFunctionKind_true in E.
Qed.

(** [function f()] with a bare [return], against [sub f()]. *)
Lemma function_kind_decides_bare_returns_witness :
  finalize_emits sampleRules sampleFile subWithoutType returnedArm
    {| frames := ∅; returnInfos := [mkReturnInfo returnNothing false];
       diagnostics := [] |} = [].
Proof.
  apply (proj2 (function_kind_decides_bare_returns sampleRules sampleFile
                  subWithoutType returnedArm
                  {| frames := ∅;
                     returnInfos := [mkReturnInfo returnNothing false];
                     diagnostics := [] |} eq_refl
                  ltac:(discriminate)
                  ltac:(repeat constructor))).
  intros (t & Ht & Hk). injection Ht as <-. discriminate Hk.
Defined.

(** * Further worked instances *)

Lemma returningBlock_faithful : Forall faithfulRecord (returnInfos returningBlock).
Proof. apply Forall_singleton. split; reflexivity. Defined.

Lemma mixedReturns_faithful : Forall faithfulRecord (returnInfos mixedReturns).
Proof. repeat constructor. Defined.

Lemma blocks_are_not_ifs (cs : list StatementInfo) :
  Forall (λ c, stat c = blockStatement) cs →
  Forall (λ c, isIfStatement (stat c) = false) cs.
Proof.
  intros H. eapply Forall_impl; [exact H|]. intros c Hc. simpl.
  unfold isIfStatement. rewrite Hc. reflexivity.
Defined.

(** [function f() as integer] with a single [return 1] in a flagged body:
    nothing to report. *)
Lemma finalize_silent_iff_witness :
  finalize_emits sampleRules sampleFile functionAsInteger returnedArm
    returningBlock = [].
Proof.
  apply (proj2 (finalize_silent_iff sampleRules sampleFile functionAsInteger
                  returnedArm returningBlock) functionAsInteger_not_void).
  right. split; [reflexivity|]. split; [discriminate|].
  apply Forall_singleton. reflexivity.
Defined.

(** [function f() as integer] without any return. *)
Lemma finalize_without_returns_witness :
  length (finalize_emits sampleRules sampleFile functionAsInteger fallingArm
            openBlockWorld) = 1.
Proof.
  rewrite (proj1 (finalize_without_returns sampleRules sampleFile
                    functionAsInteger fallingArm openBlockWorld eq_refl)).
  - reflexivity.
  - eexists. reflexivity.
  - exact functionAsInteger_not_void.
Defined.

Lemma pushed_diagnostics_are_attributed_witness :
  ∃ ds, diagnostics (visitStatement sampleRules sampleFile insideBlock0
                       (newFrame printX) returningBlock)
        = diagnostics returningBlock ++ ds
        ∧ length ds ≤ 1.
Proof.
  destruct (proj1 (pushed_diagnostics_are_attributed sampleRules sampleFile
                     functionAsInteger insideBlock0 returningBlock)
              (newFrame printX)) as (ds & Hds & Hlen & _).
  exists ds. split; assumption.
Defined.

(** The flagged block stays flagged when [print "x"] is visited. *)
Lemma visitStatement_keeps_frames_witness :
  ∃ b', frames (visitStatement sampleRules sampleFile insideBlock0
                  (newFrame printX) returningBlock) !! 0 = Some b'
        ∧ returns b' = true.
Proof.
  pose proof (visitStatement_keeps_frames sampleRules sampleFile insideBlock0
                (newFrame printX) returningBlock 0) as H.
  cbv zeta in H. destruct H as [_ H].
  destruct (H returnedArm) as (b' & Hb' & _ & _ & Hr & _).
  - vm_compute. reflexivity.
  - exists b'. split; [exact Hb'|]. apply Hr. reflexivity.
Defined.

(** Closing a returning arm keeps the if statement's node. *)
Lemma closeBlock_keeps_frames_witness :
  ∃ b', frames (closeBlock sampleRules sampleFile functionAsInteger insideIf1
                  returnedArm insideIf) !! 1 = Some b'
        ∧ stat b' = ifWithOneElseIf.
Proof.
  pose proof (closeBlock_keeps_frames sampleRules sampleFile functionAsInteger
                insideIf1 returnedArm insideIf 1) as H.
  cbv zeta in H. destruct H as (_ & _ & H).
  destruct (H openedIf) as (b' & Hb' & Hs & _).
  - vm_compute. reflexivity.
  - exists b'. split; [exact Hb'|exact Hs].
Defined.

Lemma captured_records_stay_faithful_witness :
  Forall faithfulRecord
    (returnInfos (visitStatement sampleRules sampleFile insideBlock0
                    (newFrame returnNothing) openBlockWorld)).
Proof.
  apply (captured_records_stay_faithful sampleRules sampleFile
           functionAsInteger insideBlock0 (newFrame returnNothing)
           fallingArm openBlockWorld).
  constructor.
Defined.

(** The bare [return] on line 3 is the one blamed. *)
Lemma finalizer_diagnostics_blame_the_right_returns_witness :
  ∃ r, r ∈ returnInfos mixedReturns
       ∧ (stat_kind (ret_stat r) = ReturnStatement None
          ∨ stat_kind (ret_stat r) = ReturnStatement (Some CommentOperand))
       ∧ diag_range (valueMissing sampleRules sampleFile functionAsInteger
                       (mkReturnInfo returnNothing false))
         = Some (default (funRange functionAsInteger)
                   (stat_range (ret_stat r))).
Proof.
  apply (finalizer_diagnostics_blame_the_right_returns sampleRules sampleFile
           functionAsInteger returnedArm mixedReturns
           (valueMissing sampleRules sampleFile functionAsInteger
              (mkReturnInfo returnNothing false))).
  - exact mixedReturns_faithful.
  - vm_compute. left.
  - reflexivity.
Defined.

(** [print "x" : return 1 : print "x"] in an open block. *)
Lemma statements_around_first_return_witness :
  length (diagnostics
            (visitStatements sampleRules sampleFile insideBlock0
               ([newFrame printX] ++ newFrame returnOne :: [newFrame printX])
               openBlockWorld)) = 1.
Proof.
  pose proof (statements_around_first_return sampleRules sampleFile
                insideBlock0 openBlockWorld 0 fallingArm [newFrame printX]
                (newFrame returnOne) [newFrame printX]) as H.
  cbv zeta in H. destruct H as (_ & _ & H).
  - vm_compute. reflexivity.
  - vm_compute. reflexivity.
  - reflexivity.
  - reflexivity.
  - repeat constructor.
  - reflexivity.
  - rewrite H. reflexivity.
Defined.

Lemma visitStatement_without_parent_witness :
  diagnostics (visitStatement sampleRules sampleFile outermost
                 (newFrame returnOne) returningBlock) = [].
Proof.
  pose proof (visitStatement_without_parent sampleRules sampleFile outermost
                (newFrame returnOne) returningBlock eq_refl) as H.
  cbv zeta in H. destruct H as (_ & H & _). exact H.
Defined.

(** Two of three closed arms returned: one branch is left of three. *)
Lemma closeBlocks_lowers_branch_count_witness :
  frames (closeBlocks sampleRules sampleFile functionAsInteger insideIf1
            [returnedArm; fallingArm; returnedArm] insideIf) !! 1
  = Some {| stat := ifWithOneElseIf; branches := Some 1%Z; returns := false |}.
Proof.
  pose proof (closeBlocks_lowers_branch_count sampleRules sampleFile
                functionAsInteger insideIf1
                [returnedArm; fallingArm; returnedArm] insideIf 1 openedIf 3)
    as H.
  cbv zeta in H. destruct H as (H & _).
  - vm_compute. reflexivity.
  - reflexivity.
  - reflexivity.
  - apply blocks_are_not_ifs. repeat constructor.
  - rewrite H. rewrite lookup_insert_eq. reflexivity.
Defined.

(** All three arms returned: the enclosing block is flagged. *)
Lemma if_flags_parent_iff_every_branch_returned_witness :
  ∃ closed,
    frames (closeBlocks sampleRules sampleFile functionAsInteger insideIf1
              [returnedArm; returnedArm; returnedArm] insideIf) !! 1
    = Some closed
    ∧ frames (closeBlock sampleRules sampleFile functionAsInteger insideBlock0
                closed
                (closeBlocks sampleRules sampleFile functionAsInteger
                   insideIf1 [returnedArm; returnedArm; returnedArm]
                   insideIf)) !! 0
      = Some (set_returns fallingArm).
Proof.
  pose proof (if_flags_parent_iff_every_branch_returned sampleRules sampleFile
                functionAsInteger isBranchedBlock_of_tree
                (newFrame ifWithOneElseIf) openedIf
                [mkElseIf (VariableExpression "b")] insideIf1 insideBlock0
                [returnedArm; returnedArm; returnedArm] insideIf 1 0
                fallingArm) as H.
  cbv zeta in H. destruct H as (closed & Hc & Hflag & _).
  - reflexivity.
  - reflexivity.
  - reflexivity.
  - vm_compute. reflexivity.
  - reflexivity.
  - vm_compute. reflexivity.
  - discriminate.
  - apply blocks_are_not_ifs. repeat constructor.
  - exists closed. split; [exact Hc|]. apply Hflag. reflexivity.
Defined.

(** [if a then return 1 end if] and nothing after it. *)
Lemma fall_through_is_reported_once_witness :
  ∃ w, analyse sampleRules sampleFile functionAsInteger
         isBranchedBlock_of_tree ifWithoutElse = Normal w
       ∧ length (diagnostics w) = 1.
Proof.
  destruct (fall_through_is_reported_once sampleRules sampleFile
              functionAsInteger isBranchedBlock_of_tree ifWithoutElse)
    as (w & Hw & Hd).
  - intros b Hb. exact Hb.
  - intros b Hb. unfold isBranchedBlock_of_tree, isIfStatement.
    rewrite Hb. reflexivity.
  - eexists. split; [reflexivity|]. simpl. discriminate.
  - vm_compute. reflexivity.
  - vm_compute. reflexivity.
  - vm_compute. reflexivity.
  - exists w. split; [exact Hw|]. rewrite Hd. reflexivity.
Defined.

Lemma return_flags_branch_not_parent_witness :
  diagnostics
    (visitStatement sampleRules sampleFile insideNested (newFrame printX)
       (visitStatement sampleRules sampleFile insideNested
          (newFrame returnOne) nestedInArm)) = [].
Proof.
  pose proof (return_flags_branch_not_parent sampleRules sampleFile
                insideNested nestedInArm 3 2 fallingArm fallingArm
                (newFrame returnOne) (newFrame printX)) as H.
  cbv zeta in H. destruct H as (_ & _ & H).
  - vm_compute. reflexivity.
  - reflexivity.
  - reflexivity.
  - eexists. vm_compute. reflexivity.
  - vm_compute. reflexivity.
  - discriminate.
  - reflexivity.
  - exact H.
Defined.
